(** * An FTP session exposed as a read-only io/fs file system

    Shallow embedding of [ftp.go] (package [ftp]) and of the few functions
    of Go's standard library it calls ([path.Dir], [path.Base],
    [sort.Slice], [io.Copy] into [io.Discard], [errors.Wrap]).

    Go strings are byte sequences; they are modelled by [string], whose
    characters are the 256 byte values, so that [==] is [String.eqb] and
    [<] is the byte-wise lexicographic order [String.ltb]. *)

From Stdlib Require Import ZArith Ascii String.
From stdpp Require Import base list sorting strings.

Local Open Scope Z_scope.

(** ** Go's [path] package *)

Module path.

Definition len (s : string) : nat := String.length s.

(** [s[i]]; every index used below is in range, where Go would panic we
    return the zero byte. *)
Definition byte_at (s : string) (i : nat) : ascii :=
  default Ascii.zero (String.get i s).

(** [s[i:j]] *)
Definition slice (s : string) (i j : nat) : string :=
  String.substring i (j - i) s.

Definition slash : ascii := "/"%char.
Definition dot : ascii := "."%char.

(** A lazily constructed path buffer: [buf = None] is Go's [nil] buffer,
    in which case the bytes written so far are [s[:w]]. *)
Record lazybuf := Lazybuf {
  s : string;
  buf : option (list ascii);
  w : nat
}.

Definition index (b : lazybuf) (i : nat) : ascii :=
  match buf b with
  | Some bf => nth i bf Ascii.zero
  | None => byte_at (s b) i
  end.

Definition append (b : lazybuf) (c : ascii) : lazybuf :=
  match buf b with
  | None =>
      if ((w b <? len (s b))%nat && Ascii.eqb (byte_at (s b) (w b)) c)%bool
      then {| s := s b; buf := None; w := S (w b) |}
      else
        let bf := take (w b) (list_ascii_of_string (s b))
                    ++ replicate (len (s b) - w b) Ascii.zero in
        {| s := s b; buf := Some (<[w b := c]> bf); w := S (w b) |}
  | Some bf =>
      {| s := s b; buf := Some (<[w b := c]> bf); w := S (w b) |}
  end.

Definition lazybuf_string (b : lazybuf) : string :=
  match buf b with
  | None => slice (s b) 0 (w b)
  | Some bf => string_of_list_ascii (take (w b) bf)
  end.

Definition set_w (b : lazybuf) (n : nat) : lazybuf :=
  {| s := s b; buf := buf b; w := n |}.

(** [for out.w > dotdot && out.index(out.w) != '/' { out.w-- }] *)
Fixpoint backtrack (fuel : nat) (dotdot : nat) (out : lazybuf) : lazybuf :=
  match fuel with
  | O => out
  | S fuel' =>
      if ((dotdot <? w out)%nat && negb (Ascii.eqb (index out (w out)) slash))%bool
      then backtrack fuel' dotdot (set_w out (w out - 1))
      else out
  end.

(** [for ; r < n && path[r] != '/'; r++ { out.append(path[r]) }] *)
Fixpoint copy_element (fuel : nat) (p : string) (r : nat) (out : lazybuf)
  : nat * lazybuf :=
  match fuel with
  | O => (r, out)
  | S fuel' =>
      if ((r <? len p)%nat && negb (Ascii.eqb (byte_at p r) slash))%bool
      then copy_element fuel' p (S r) (append out (byte_at p r))
      else (r, out)
  end.

(** The main loop [for r < n { switch ... }] of [Clean].  Every iteration
    advances [r], so [len p - r] iterations are enough; the fuel given to
    the three loops never runs out before they end (lemmas
    [clean_loop_fuel], [copy_element_fuel] and [backtrack_fuel] below). *)
Fixpoint clean_loop (fuel : nat) (p : string) (rooted : bool)
    (r dotdot : nat) (out : lazybuf) : lazybuf :=
  match fuel with
  | O => out
  | S fuel' =>
      let n := len p in
      if negb (r <? n)%nat then out
      else if Ascii.eqb (byte_at p r) slash then
        (* empty path element *)
        clean_loop fuel' p rooted (r + 1) dotdot out
      else if (Ascii.eqb (byte_at p r) dot
               && ((r + 1 =? n)%nat || Ascii.eqb (byte_at p (r + 1)) slash))%bool then
        (* . element *)
        clean_loop fuel' p rooted (r + 1) dotdot out
      else if (Ascii.eqb (byte_at p r) dot && Ascii.eqb (byte_at p (r + 1)) dot
               && ((r + 2 =? n)%nat || Ascii.eqb (byte_at p (r + 2)) slash))%bool then
        (* .. element: remove to last / *)
        let r := (r + 2)%nat in
        if (dotdot <? w out)%nat then
          (* can backtrack *)
          let out := set_w out (w out - 1) in
          clean_loop fuel' p rooted r dotdot (backtrack (w out) dotdot out)
        else if negb rooted then
          (* cannot backtrack, but not rooted, so append .. element *)
          let out := if (0 <? w out)%nat then append out slash else out in
          let out := append (append out dot) dot in
          clean_loop fuel' p rooted r (w out) out
        else clean_loop fuel' p rooted r dotdot out
      else
        (* real path element; add slash if needed *)
        let out :=
          if (rooted && negb (w out =? 1)%nat || negb rooted && negb (w out =? 0)%nat)%bool
          then append out slash else out in
        let '(r, out) := copy_element (n - r) p r out in
        clean_loop fuel' p rooted r dotdot out
  end.

Definition Clean (p : string) : string :=
  if String.eqb p "" then "."
  else
    let rooted := Ascii.eqb (byte_at p 0) slash in
    let n := len p in
    let out := {| s := p; buf := None; w := 0 |} in
    let '(out, r, dotdot) :=
      if rooted then (append out slash, 1%nat, 1%nat) else (out, 0%nat, 0%nat) in
    let out := clean_loop (n - r) p rooted r dotdot out in
    if (w out =? 0)%nat then "." else lazybuf_string out.

(** [bytealg.LastIndexByteString(s, '/')]: the index of the last slash,
    [-1] when there is none. *)
Fixpoint lastSlash_from (p : string) (i : nat) : Z :=
  match i with
  | O => -1
  | S i' => if Ascii.eqb (byte_at p i') slash then Z.of_nat i' else lastSlash_from p i'
  end.

Definition lastSlash (p : string) : Z := lastSlash_from p (len p).

Definition Split (p : string) : string * string :=
  let i := lastSlash p in
  (slice p 0 (Z.to_nat (i + 1)), slice p (Z.to_nat (i + 1)) (len p)).

(** [for len(path) > 0 && path[len(path)-1] == '/' { path = path[0 : len(path)-1] }] *)
Fixpoint strip_slashes (fuel : nat) (p : string) : string :=
  match fuel with
  | O => p
  | S fuel' =>
      if ((0 <? len p)%nat && Ascii.eqb (byte_at p (len p - 1)) slash)%bool
      then strip_slashes fuel' (slice p 0 (len p - 1))
      else p
  end.

Definition Base (p : string) : string :=
  if String.eqb p "" then "."
  else
    (* Strip trailing slashes. *)
    let p := strip_slashes (len p) p in
    (* Find the last element *)
    let i := lastSlash p in
    let p := if 0 <=? i then slice p (Z.to_nat (i + 1)) (len p) else p in
    (* If empty now, it had only slashes. *)
    if String.eqb p "" then "/" else p.

Definition Dir (p : string) : string :=
  let '(dir, _) := Split p in Clean dir.

(** *** [Clean] without the lazy buffer

    The same loop on the bytes still to read, its output a plain list of
    bytes.  [copying] says that the loop is inside the copy of a path
    element.  [Clean_refines] below proves that [Clean] computes this. *)

Definition is_slash (c : ascii) : bool := Ascii.eqb c slash.
Definition is_dot (c : ascii) : bool := Ascii.eqb c dot.

(** At the end of the path or before a slash. *)
Definition at_boundary (rest : list ascii) : bool :=
  match rest with
  | [] => true
  | c :: _ => is_slash c
  end.

Fixpoint backtrack_chars (fuel dotdot : nat) (out : list ascii) (w : nat) : nat :=
  match fuel with
  | O => w
  | S fuel' =>
      if ((dotdot <? w)%nat && negb (is_slash (nth w out Ascii.zero)))%bool
      then backtrack_chars fuel' dotdot out (w - 1)
      else w
  end.

Fixpoint clean_chars (rooted copying : bool) (rest : list ascii)
    (dotdot : nat) (out : list ascii) : list ascii :=
  match rest with
  | [] => out
  | c :: rest' =>
      if copying then
        if is_slash c then clean_chars rooted false rest' dotdot out
        else clean_chars rooted true rest' dotdot (out ++ [c])
      else if is_slash c then clean_chars rooted false rest' dotdot out
      else if (is_dot c && at_boundary rest')%bool then
        clean_chars rooted false rest' dotdot out
      else if (is_dot c && match rest' with c' :: _ => is_dot c' | [] => false end
               && at_boundary (tl rest'))%bool then
        match rest' with
        | [] => out  (* not reached: the byte after [c] is a dot *)
        | _ :: rest'' =>
            if (dotdot <? length out)%nat then
              let w := backtrack_chars (length out - 1) dotdot out (length out - 1) in
              clean_chars rooted false rest'' dotdot (take w out)
            else if negb rooted then
              let out := if (0 <? length out)%nat then out ++ [slash] else out in
              let out := out ++ [dot; dot] in
              clean_chars rooted false rest'' (length out) out
            else clean_chars rooted false rest'' dotdot out
        end
      else
        let out :=
          if (rooted && negb (length out =? 1)%nat
              || negb rooted && negb (length out =? 0)%nat)%bool
          then out ++ [slash] else out in
        clean_chars rooted true rest' dotdot (out ++ [c])
  end.

Definition Clean_chars (p : list ascii) : list ascii :=
  match p with
  | [] => [dot]
  | c :: rest =>
      let rooted := is_slash c in
      let out :=
        if rooted then clean_chars true false rest 1 [slash]
        else clean_chars false false p 0 [] in
      if (length out =? 0)%nat then [dot] else out
  end.

(** The backing array of a buffer, the bytes written so far, and the
    invariant of a buffer of [Clean(p)]. *)
Definition raw (b : lazybuf) : list ascii :=
  match buf b with
  | None => list_ascii_of_string (s b)
  | Some bf => bf
  end.

Definition content (b : lazybuf) : list ascii := take (w b) (raw b).

Definition lazybuf_ok (p : string) (b : lazybuf) : Prop :=
  s b = p /\ length (raw b) = len p /\ (w b <= len p)%nat.

(** Where the output starts: after the leading slash of a rooted path. *)
Definition out_start (rooted : bool) : nat := if rooted then 1%nat else 0%nat.

(** The output never runs ahead of the input, and catches up with it only
    at the start, at the end, or before a slash. *)
Definition behind (p : string) (rooted : bool) (r : nat) (b : lazybuf) : Prop :=
  (w b <= r)%nat /\
  (w b = r -> r = out_start rooted \/ (len p <= r)%nat \/ byte_at p r = slash).

(** Shapes of paths: a run of bytes without a slash, a run that is empty
    or ends with a slash, a run that is empty or ends with another byte,
    and a path that has a byte other than a slash, that is, a last
    element. *)
Definition no_slash (f : list ascii) : Prop := Forall (fun c => c <> slash) f.

Definition slash_ended (d : list ascii) : Prop := d = [] \/ last d = Some slash.

Definition byte_ended (a : list ascii) : Prop :=
  a = [] \/ exists c, last a = Some c /\ c <> slash.

Definition has_element (q : string) : Prop :=
  exists c, c ∈ list_ascii_of_string q /\ c <> slash.

(** The output of a rooted path starts with a slash, that of another path
    is empty or starts with another byte. *)
Definition head_ok (rooted : bool) (out : list ascii) : Prop :=
  match out with
  | [] => rooted = false
  | c :: _ => is_slash c = rooted
  end.



End path.

(** ** github.com/jlaffaye/ftp

    [type EntryType int] with the constants [EntryTypeFile],
    [EntryTypeFolder], [EntryTypeLink] numbered by [iota], and the [Entry]
    struct of a directory listing.  [Size] is a [uint64], [Time] a
    [time.Time] (kept abstract as a number).  A listing is a [[]*Entry]
    without [nil] pointers; it is modelled as a list of entries. *)
Module jlaftp.

Definition EntryType := Z.
Definition EntryTypeFile : EntryType := 0.
Definition EntryTypeFolder : EntryType := 1.
Definition EntryTypeLink : EntryType := 2.

Record Entry := {
  Name : string;
  Target : string;
  Type_ : EntryType;   (* Go: Type *)
  Size : Z;
  Time : Z
}.

(** The range of the [uint64] field. *)
Definition uint64_range (x : Z) : Prop := 0 <= x < 2 ^ 64.

End jlaftp.

Import jlaftp.

#[global] Instance Entry_eq_dec : EqDecision Entry.
Proof. solve_decision. Defined.

(** ** Errors and formatted messages *)

(** The operands of a [fmt] verb: a message is kept as its format string
    and operands, [fmt.Sprintf(format, args...)], not rendered to text. *)
Inductive fmt_arg :=
| FmtString (s : string)
| FmtEntries (es : list Entry)
| FmtFileinfo (e : Entry).

Record formatted := Sprintf { format : string; args : list fmt_arg }.

(** [fmt.Sprintf("%s", s)] is [s]. *)
Definition Sprintf_s (s : string) : string := s.

(** Go [error] values met by the package: [io.EOF], an error of the
    protocol client or of the network (opaque, named by its text),
    [errors.Errorf(format, args...)] and [errors.Wrap(cause, message)] of
    github.com/pkg/errors (the recorded stack is left out). *)
Inductive error :=
| EOF
| Foreign (text : string)
| Errorf (format : string) (args : list fmt_arg)
| Wrap (cause : error) (message : string).

(** [err == io.EOF] *)
Definition is_EOF (err : error) : bool :=
  match err with EOF => true | _ => false end.

(** A Go result [(T, error)] of which exactly one component is set. *)
Inductive result (A : Type) :=
| Ok (a : A)
| Err (err : error).
Arguments Ok {A} a.
Arguments Err {A} err.

(** A call that either returns or panics with a formatted value. *)
Inductive outcome (A : Type) :=
| Returns (a : A)
| Panics (v : formatted).
Arguments Returns {A} a.
Arguments Panics {A} v.

(** ** io/fs file modes *)

Module fs.

(** [type FileMode uint32]; [ModeDir = 1 << (32 - 1 - iota)] and so on. *)
Definition FileMode := Z.
Definition ModeDir : FileMode := Z.shiftl 1 31.
Definition ModeSymlink : FileMode := Z.shiftl 1 27.
Definition ModeDevice : FileMode := Z.shiftl 1 26.
Definition ModeNamedPipe : FileMode := Z.shiftl 1 25.
Definition ModeSocket : FileMode := Z.shiftl 1 24.
Definition ModeCharDevice : FileMode := Z.shiftl 1 21.
Definition ModeIrregular : FileMode := Z.shiftl 1 19.
Definition ModeType : FileMode :=
  Z.lor ModeDir (Z.lor ModeSymlink (Z.lor ModeNamedPipe (Z.lor ModeSocket
    (Z.lor ModeDevice (Z.lor ModeCharDevice ModeIrregular))))).

(** [func (m FileMode) IsDir() bool { return m&ModeDir != 0 }] *)
Definition FileMode_IsDir (m : FileMode) : bool := negb (Z.land m ModeDir =? 0).
(** [func (m FileMode) IsRegular() bool { return m&ModeType == 0 }] *)
Definition FileMode_IsRegular (m : FileMode) : bool := Z.land m ModeType =? 0.
(** [func (m FileMode) Type() FileMode { return m & ModeType }] *)
Definition FileMode_Type (m : FileMode) : FileMode := Z.land m ModeType.

(** [ModePerm FileMode = 0777] and
    [func (m FileMode) Perm() FileMode { return m & ModePerm }] *)
Definition ModePerm : FileMode := 511.
Definition FileMode_Perm (m : FileMode) : FileMode := Z.land m ModePerm.

End fs.

(** ** [fileinfo] *)

Record fileinfo := Fileinfo { e : Entry }.

#[global] Instance fileinfo_eq_dec : EqDecision fileinfo.
Proof. solve_decision. Defined.

(** The conversion [int64(x)] of a [uint64]: the same 64 bits read in two's
    complement. *)
Definition int64_of_uint64 (x : Z) : Z :=
  let x := x mod 2 ^ 64 in
  if x <? 2 ^ 63 then x else x - 2 ^ 64.

Module FileInfo.

Definition Name (info : fileinfo) : string := Name (e info).

Definition Size (info : fileinfo) : Z := int64_of_uint64 (Size (e info)).

Definition Mode (info : fileinfo) : outcome fs.FileMode :=
  let t := Type_ (e info) in
  if t =? EntryTypeFile then Returns 0
  else if t =? EntryTypeFolder then Returns fs.ModeDir
  else if t =? EntryTypeLink then Returns fs.ModeSymlink
  else Panics (Sprintf "%+v" [FmtFileinfo (e info)]).

Definition ModTime (info : fileinfo) : Z := Time (e info).

Definition IsDir (info : fileinfo) : bool := Type_ (e info) =? EntryTypeFolder.

Definition Sys (info : fileinfo) : Entry := e info.

End FileInfo.

(** [fs.FileInfoToDirEntry(info)] returns [dirInfo{fileInfo: info}], whose
    [Name] and [IsDir] are those of [info]. *)
Record DirEntry := dirInfo { fileInfo : fileinfo }.

Definition FileInfoToDirEntry (info : fileinfo) : DirEntry := dirInfo info.

Definition DirEntry_Name (d : DirEntry) : string := FileInfo.Name (fileInfo d).

(** The other methods of [dirInfo]:
    [IsDir() bool { return di.fileInfo.IsDir() }],
    [Type() FileMode { return di.fileInfo.Mode().Type() }] and
    [Info() (FileInfo, error) { return di.fileInfo, nil }]. *)
Definition DirEntry_IsDir (d : DirEntry) : bool := FileInfo.IsDir (fileInfo d).

Definition DirEntry_Type (d : DirEntry) : outcome fs.FileMode :=
  match FileInfo.Mode (fileInfo d) with
  | Returns m => Returns (fs.FileMode_Type m)
  | Panics v => Panics v
  end.

Definition DirEntry_Info (d : DirEntry) : result fileinfo := Ok (fileInfo d).

(** ** Effects

    The session and the data stream are stateful collaborators.  A call
    threads the collaborator's state and appends to a log of the calls
    issued, so that what was issued, and in which order, can be stated. *)

Inductive event :=
| EvList (dir : string)                       (* c.List(dir) *)
| EvRetr (name : string)                      (* c.Retr(name) *)
| EvRead (n : Z) (err : option error)         (* resp.Read(b) returned (n, err) *)
| EvClose (err : option error)                (* resp.Close() returned err *)
| EvLog (err : error).                        (* log.Printf("%+v", err) *)

Definition M (St A : Type) : Type := St * list event -> A * (St * list event).

Definition ret {St A} (a : A) : M St A := fun w => (a, w).

Definition bind {St A B} (m : M St A) (k : A -> M St B) : M St B :=
  fun w => let '(a, w') := m w in k a w'.

Notation "'do' x <- m ; k" := (bind m (fun x => k))
  (at level 10, x pattern, m at level 100, k at level 200).

Definition emit {St} (ev : event) : M St unit :=
  fun '(st, tr) => (tt, (st, tr ++ [ev])).

(** A primitive of the collaborator: a transition of its state. *)
Definition prim {St A} (step : St -> A * St) : M St A :=
  fun '(st, tr) => let '(a, st') := step st in (a, (st', tr)).

(** [*jlaftp.Response]: the data stream of a retrieve.  [resp_Read st k] is
    [Read(b)] with [len(b) = k], returning [(n, err)]. *)
Class Response (R : Type) := {
  resp_Read : R -> nat -> (Z * option error) * R;
  resp_Close : R -> option error * R
}.

(** [*jlaftp.ServerConn]: the session, with its listing and retrieve
    commands; [R] is the type of the streams it hands out. *)
Class ServerConn (S R : Type) := {
  conn_List : S -> string -> result (list Entry) * S;
  conn_Retr : S -> string -> result R * S
}.

Definition Response_Read {R} `{Response R} (k : nat) : M R (Z * option error) :=
  do r <- prim (fun st => resp_Read st k);
  do _ <- emit (EvRead (fst r) (snd r));
  ret r.

Definition Response_Close {R} `{Response R} : M R (option error) :=
  do err <- prim resp_Close;
  do _ <- emit (EvClose err);
  ret err.

Definition ServerConn_List {S R} `{ServerConn S R} (dir : string)
  : M S (result (list Entry)) :=
  do _ <- emit (EvList dir);
  prim (fun st => conn_List st dir).

Definition ServerConn_Retr {S R} `{ServerConn S R} (name : string)
  : M S (result R) :=
  do _ <- emit (EvRetr name);
  prim (fun st => conn_Retr st name).

(** ** [io.Copy(io.Discard, src)]

    [src] has no [WriteTo] and [io.Discard] has a [ReadFrom], so the copy is
    [discard.ReadFrom]: read into an 8192-byte scratch buffer until the
    reader reports an error, and report success when that error is
    [io.EOF].  The loop need not end on every reader; [fuel] bounds the
    number of reads and [None] says the bound was hit. *)
Definition blackHole_len : nat := (8 * 1024)%nat.

Fixpoint discard_ReadFrom {R} `{Response R} (fuel : nat) (n : Z)
  : M R (option (Z * option error)) :=
  match fuel with
  | O => ret None
  | S fuel' =>
      do r <- Response_Read blackHole_len;
      let n := n + fst r in
      match snd r with
      | Some err => if is_EOF err then ret (Some (n, None)) else ret (Some (n, Some err))
      | None => discard_ReadFrom fuel' n
      end
  end.

Definition io_Copy_Discard {R} `{Response R} (fuel : nat)
  : M R (option (Z * option error)) :=
  discard_ReadFrom fuel 0.

(** ** [File] *)

Record File (R : Type) := { info : fileinfo; resp : R }.
Arguments info {R} f.
Arguments resp {R} f.

Module File.

(** The methods of [*File] act on the stream [f.resp]; the state threaded
    is the stream's, [info] never changes. *)
Definition Stat {R} (f : File R) : result fileinfo := Ok (info f).

Definition Read {R} `{Response R} (b : nat) : M R (Z * option error) :=
  do r <- Response_Read b;
  let '(n, err) := r in
  match err with
  | Some err =>
      if is_EOF err then ret (n, Some err)
      else ret (n, Some (Wrap err ""))
  | None => ret (n, None)
  end.

Definition Close {R} `{Response R} (fuel : nat) : M R (option (option error)) :=
  do c <- io_Copy_Discard fuel;
  match c with
  | None => ret None
  | Some (_, Some err) => ret (Some (Some (Wrap err "")))
  | Some (_, None) =>
      do cerr <- Response_Close;
      match cerr with
      | Some err =>
          do _ <- emit (EvLog err);
          ret (Some (Some (Wrap err "")))
      | None => ret (Some None)
      end
  end.

End File.

(** ** [sort.Slice]

    The standard library sorts in place with a pattern-defeating quicksort
    that falls back to insertion sort on short ranges.  Its contract: the
    slice is permuted so that no element is [less] than one before it,
    provided [less] is a transitive ordering; the order of elements that
    compare equal is not specified. *)
Class SortSlice := {
  sort_Slice : forall {A : Type}, (A -> A -> bool) -> list A -> list A
}.

Record transitive_ordering {A} (less : A -> A -> bool) : Prop := {
  less_irrefl : forall x, less x x = false;
  less_trans : forall x y z, less x y = true -> less y z = true -> less x z = true;
  less_incomp : forall x y z, less x y = false -> less y z = false -> less x z = false
}.

Class SortSliceSpec `{SortSlice} : Prop := {
  sort_Slice_perm : forall A (less : A -> A -> bool) (l : list A),
    sort_Slice less l ≡ₚ l;
  sort_Slice_sorted : forall A (less : A -> A -> bool) (l : list A),
    transitive_ordering less ->
    Sorted (fun x y => less y x = false) (sort_Slice less l)
}.

(** [data.Swap(i, j)] *)
Definition swap {A} (l : list A) (i j : nat) : list A :=
  match l !! i, l !! j with
  | Some x, Some y => <[i := y]> (<[j := x]> l)
  | _, _ => l
  end.

(** [for j := i; j > a && data.Less(j, j-1); j-- { data.Swap(j, j-1) }]
    with [a = 0]. *)
Fixpoint sift_down {A} (less : A -> A -> bool) (j : nat) (l : list A) : list A :=
  match j with
  | O => l
  | S j' =>
      match l !! j, l !! j' with
      | Some x, Some y => if less x y then sift_down less j' (swap l j j') else l
      | _, _ => l
      end
  end.

(** [for i := a + 1; i < b; i++ { ... }]: [k] iterations from [i]. *)
Fixpoint insertion_loop {A} (less : A -> A -> bool) (k i : nat) (l : list A) : list A :=
  match k with
  | O => l
  | S k' => insertion_loop less k' (S i) (sift_down less i l)
  end.

(** [insertionSortLessFunc(data, 0, n)], which is what [sort.Slice] runs on
    a slice of at most 12 elements. *)
Definition insertionSort {A} (less : A -> A -> bool) (l : list A) : list A :=
  insertion_loop less (length l - 1) 1 l.

(** ** [FS] *)

Module FS.

(** An [*FS] holds the connection [c] and nothing else ([NewFS] only stores
    it); its methods are given the state of the connection. *)

(** The [for ... range entries] loop of [getEntry], which leaves at the
    first entry of that name; [None] is the [nil] entry. *)
Fixpoint scan (base : string) (entries : list Entry) : option Entry :=
  match entries with
  | [] => None
  | e :: rest => if String.eqb (Name e) base then Some e else scan base rest
  end.

Definition getEntry {S R} `{ServerConn S R} (name : string) : M S (result Entry) :=
  let parent := path.Dir name in
  do r <- ServerConn_List parent;
  match r with
  | Err err => ret (Err (Wrap err (Sprintf_s parent)))
  | Ok entries =>
      let base := path.Base name in
      match scan base entries with
      | None =>
          let derefed := entries in
          ret (Err (Errorf "%s %+v" [FmtString base; FmtEntries derefed]))
      | Some entry => ret (Ok entry)
      end
  end.

Definition Open {S R} `{ServerConn S R} (name : string) : M S (result (File R)) :=
  do r <- getEntry name;
  match r with
  | Err err => ret (Err (Wrap err ""))
  | Ok entry =>
      do rr <- ServerConn_Retr name;
      match rr with
      | Err err => ret (Err (Wrap err ""))
      | Ok resp => ret (Ok {| info := {| e := entry |}; resp := resp |})
      end
  end.

Definition Stat {S R} `{ServerConn S R} (name : string) : M S (result fileinfo) :=
  do r <- getEntry name;
  match r with
  | Err err => ret (Err (Wrap err ""))
  | Ok entry => ret (Ok {| e := entry |})
  end.

(** The [for ... range entries] loop of [ReadDir]. *)
Fixpoint collect (entries : list Entry) : list DirEntry :=
  match entries with
  | [] => []
  | e :: rest =>
      if String.eqb (Name e) "." then collect rest
      else if String.eqb (Name e) ".." then collect rest
      else FileInfoToDirEntry {| e := e |} :: collect rest
  end.

Definition ReadDir {S R} {conn : ServerConn S R} {sorter : SortSlice} (name : string)
  : M S (result (list DirEntry)) :=
  do r <- ServerConn_List name;
  match r with
  | Err err => ret (Err (Wrap err ""))
  | Ok entries =>
      let entries := sort_Slice (fun a b => String.ltb (Name a) (Name b)) entries in
      ret (Ok (collect entries))
  end.

End FS.

(** ** Concrete collaborators

    A finite data stream and a server with fixed listings, on which the
    operations can be run. *)

(** A stream with [unread] bytes left; once they are delivered it reports
    [broken] if set, [io.EOF] otherwise.  A read delivers as much as the
    buffer takes. *)
Record netstream := {
  unread : list ascii;
  broken : option error;
  closed : bool
}.

Definition netstream_Read (st : netstream) (k : nat) : (Z * option error) * netstream :=
  match unread st with
  | [] => ((0, Some (default EOF (broken st))), st)
  | _ :: _ =>
      let n := Nat.min k (length (unread st)) in
      ((Z.of_nat n, None),
       {| unread := drop n (unread st); broken := broken st; closed := closed st |})
  end.

Definition netstream_Close (st : netstream) : option error * netstream :=
  (None, {| unread := unread st; broken := broken st; closed := true |}).

#[global] Instance netstream_Response : Response netstream := {
  resp_Read := netstream_Read;
  resp_Close := netstream_Close
}.

(** A server answering from two tables; a path missing from a table is
    refused with the reply [550]. *)
Record tableServer := {
  listings : list (string * list Entry);
  files : list (string * list ascii)
}.

Fixpoint assoc {A} (k : string) (t : list (string * A)) : option A :=
  match t with
  | [] => None
  | (k', v) :: t' => if String.eqb k' k then Some v else assoc k t'
  end.

#[global] Instance tableServer_ServerConn : ServerConn tableServer netstream := {
  conn_List st dir :=
    (match assoc dir (listings st) with
     | Some es => Ok es
     | None => Err (Foreign "550 Failed to change directory.")
     end, st);
  conn_Retr st name :=
    (match assoc name (files st) with
     | Some data => Ok {| unread := data; broken := None; closed := false |}
     | None => Err (Foreign "550 Failed to open file.")
     end, st)
}.

Definition insertionSort_SortSlice : SortSlice := {| sort_Slice := @insertionSort |}.

(** The comparison [ReadDir] hands to [sort.Slice]. *)
Definition less_Name (a b : Entry) : bool := String.ltb (Name a) (Name b).

Definition file_entry (name : string) (size : Z) : Entry :=
  {| Name := name; Target := ""; Type_ := EntryTypeFile; Size := size; Time := 0 |}.

Definition dir_entry (name : string) : Entry :=
  {| Name := name; Target := ""; Type_ := EntryTypeFolder; Size := 0; Time := 0 |}.

(** ** Shapes of logs *)

(** A read that returned no error. *)
Definition ok_read (ev : event) : Prop := exists n, ev = EvRead n None.

(** What [Close] returns, and logs, after [resp.Close()] returned [cerr]. *)
Definition close_status (cerr : option error) : option error :=
  match cerr with Some err => Some (Wrap err "") | None => None end.

Definition close_log (cerr : option error) : list event :=
  match cerr with Some err => [EvLog err] | None => [] end.

(** ** Statements about [ReadDir] and about error context *)

(** The pseudo-entries [ReadDir] leaves out. *)
Definition is_dot_name (name : string) : Prop := name = "." \/ name = "..".

#[global] Instance is_dot_name_dec name : Decision (is_dot_name name).
Proof. unfold is_dot_name. apply _. Defined.

(** Names in byte-wise lexicographic order: not after, and strictly
    before. *)
Definition name_le (a b : DirEntry) : Prop :=
  String.leb (DirEntry_Name a) (DirEntry_Name b) = true.

Definition name_lt (a b : DirEntry) : Prop :=
  String.ltb (DirEntry_Name a) (DirEntry_Name b) = true.

(** The raw entries behind a result of [ReadDir]. *)
Definition raw_entries (ds : list DirEntry) : list Entry :=
  (fun d => e (fileInfo d)) <$> ds.





(** A server to run the operations on. *)
Definition demo_server : tableServer := {|
  listings :=
    [("/x", [file_entry "z" 1]);
     ("/pub", [dir_entry "."; dir_entry ".."; file_entry "b.txt" 2; file_entry "a.txt" 1]);
     ("a", [dir_entry "b"]);
     ("a/b", [file_entry "c" 5]);
     ("/dup", [file_entry "a" 1; file_entry "a" 2]);
     ("/dup2", [file_entry "a" 2; file_entry "a" 1]);
     ("/", [dir_entry "pub"; dir_entry "x"])];
  files := [("/pub/a.txt", ["a"]%char); ("/x/z", ["z"]%char)]
|}.

(** A second server: a directory with nothing but the two pseudo-entries,
    and a file whose stream breaks. *)
Definition bare_server : tableServer := {|
  listings := [("/empty", [dir_entry "."; dir_entry ".."]); ("/none", [])];
  files := []
|}.

(** * Properties *)

Example Clean_examples :
  map path.Clean ["a/c"; "a//c"; "a/c/."; "a/c/b/.."; "/../a/c"; "/../a/b/../././/c"; ""; "../../x"; "a/../.."; "abc/def/../../../g"]
  = ["a/c"; "a/c"; "a/c"; "a/c"; "/a/c"; "/a/c"; "."; "../../x"; ".."; "../g"].
Proof. vm_compute. reflexivity. Qed.

Example Dir_examples :
  map path.Dir ["/a/b/c"; "a/b/c"; "/a/"; "a/"; "/"; ""; "a/b/"; "a/./b"]
  = ["/a/b"; "a/b"; "/a"; "a"; "/"; "."; "a/b"; "a"].
Proof. vm_compute. reflexivity. Qed.

Example Clean_chars_examples :
  let paths := ["a/c"; "a//c"; "a/c/."; "a/c/b/.."; "/../a/c"; "/../a/b/../././/c"; "";
                "../../x"; "a/../.."; "abc/def/../../../g"; "/"; "//"; "/.."; "..";
                "a/b/../../../c/./d/"; "/a/b/../../../c/./d/"; "x/.../y"; ".a/..b/c."] in
  map (fun p => string_of_list_ascii (path.Clean_chars (list_ascii_of_string p))) paths
  = map path.Clean paths.
Proof. vm_compute. reflexivity. Qed.

Example Base_examples :
  map path.Base ["/a/b"; "/"; ""; "a/b/"; "///"; "x"]
  = ["b"; "/"; "."; "b"; "/"; "x"].
Proof. vm_compute. reflexivity. Qed.

(** ** Running an operation *)

Ltac run :=
  unfold FS.Stat, FS.Open, FS.getEntry, FS.ReadDir, File.Read,
    ServerConn_List, ServerConn_Retr, Response_Read, Response_Close,
    bind, ret, emit, prim; simpl.

(** ** [fileinfo] *)

Section Fileinfo.

Implicit Types (info : fileinfo) (ent : Entry).

Lemma int64_of_uint64_small x :
  0 <= x < 2 ^ 63 -> int64_of_uint64 x = x.
Proof.
  intros Hx. unfold int64_of_uint64.
  rewrite Z.mod_small by lia.
  destruct (Z.ltb_spec x (2 ^ 63)); lia.
Qed.

Lemma int64_of_uint64_large x :
  2 ^ 63 <= x < 2 ^ 64 -> int64_of_uint64 x = x - 2 ^ 64.
Proof.
  intros Hx. unfold int64_of_uint64.
  rewrite Z.mod_small by lia.
  destruct (Z.ltb_spec x (2 ^ 63)); lia.
Qed.

Lemma int64_of_uint64_range x :
  - 2 ^ 63 <= int64_of_uint64 x < 2 ^ 63.
Proof.
  unfold int64_of_uint64.
  pose proof (Z.mod_pos_bound x (2 ^ 64) ltac:(lia)) as Hm.
  destruct (Z.ltb_spec (x mod 2 ^ 64) (2 ^ 63)); lia.
Qed.

Lemma int64_of_uint64_bits x :
  int64_of_uint64 x mod 2 ^ 64 = x mod 2 ^ 64.
Proof.
  unfold int64_of_uint64.
  destruct (Z.ltb_spec (x mod 2 ^ 64) (2 ^ 63)).
  - apply Z.mod_mod. lia.
  - replace (x mod 2 ^ 64 - 2 ^ 64) with (x mod 2 ^ 64 + (-1) * 2 ^ 64) by lia.
    rewrite Z.mod_add by lia. apply Z.mod_mod. lia.
Qed.

(** C10. [Size()] is [int64(info.e.Size)]: the 64 bits of the unsigned
    size read as a signed number.  It is the size itself below 2^63, the
    size minus 2^64 from 2^63 on, hence negative there; it always lies in
    the [int64] range and agrees with the raw size modulo 2^64. *)
Theorem Size_reinterprets_uint64 info :
  uint64_range (Size (e info)) ->
  (Size (e info) < 2 ^ 63 -> FileInfo.Size info = Size (e info)) /\
  (2 ^ 63 <= Size (e info) ->
     FileInfo.Size info = Size (e info) - 2 ^ 64 /\ FileInfo.Size info < 0) /\
  - 2 ^ 63 <= FileInfo.Size info < 2 ^ 63 /\
  FileInfo.Size info mod 2 ^ 64 = Size (e info).
Proof.
  unfold uint64_range, FileInfo.Size. intros Hr. repeat split.
  - intros. apply int64_of_uint64_small. lia.
  - rewrite int64_of_uint64_large; lia.
  - rewrite int64_of_uint64_large; lia.
  - apply int64_of_uint64_range.
  - apply int64_of_uint64_range.
  - rewrite int64_of_uint64_bits. apply Z.mod_small. lia.
Qed.

Lemma Size_reinterprets_uint64_witness :
  let info := {| e := file_entry "huge.bin" (2 ^ 63 + 5) |} in
  uint64_range (Size (e info)) /\ FileInfo.Size info = - 2 ^ 63 + 5.
Proof.
  intros info.
  assert (Hr : uint64_range (Size (e info))) by (unfold uint64_range; simpl; lia).
  split; [exact Hr|].
  destruct (Size_reinterprets_uint64 info Hr) as (_ & Hlarge & _).
  destruct Hlarge as [-> _]; simpl; lia.
Defined.

(** C6. The mode of each of the three entry types, and the panic on every
    other type value.  The directory type is the one for which [IsDir]
    holds; the mode returned depends on the type alone. *)
Theorem Mode_translation info :
  (Type_ (e info) = EntryTypeFile ->
     FileInfo.Mode info = Returns 0 /\ fs.FileMode_IsRegular 0 = true /\
     FileInfo.IsDir info = false) /\
  (Type_ (e info) = EntryTypeFolder ->
     FileInfo.Mode info = Returns fs.ModeDir /\ fs.FileMode_IsDir fs.ModeDir = true /\
     FileInfo.IsDir info = true) /\
  (Type_ (e info) = EntryTypeLink ->
     FileInfo.Mode info = Returns fs.ModeSymlink /\
     fs.FileMode_Type fs.ModeSymlink = fs.ModeSymlink /\
     FileInfo.IsDir info = false) /\
  (Type_ (e info) <> EntryTypeFile -> Type_ (e info) <> EntryTypeFolder ->
   Type_ (e info) <> EntryTypeLink ->
     FileInfo.Mode info = Panics (Sprintf "%+v" [FmtFileinfo (e info)])) /\
  (forall info' m m', Type_ (e info') = Type_ (e info) ->
     FileInfo.Mode info = Returns m -> FileInfo.Mode info' = Returns m' -> m = m').
Proof.
  unfold FileInfo.Mode, FileInfo.IsDir, EntryTypeFile, EntryTypeFolder, EntryTypeLink.
  split; [|split; [|split; [|split]]].
  - intros ->. repeat split.
  - intros ->. repeat split.
  - intros ->. repeat split.
  - intros H0 H1 H2.
    destruct (Z.eqb_spec (Type_ (e info)) 0); [lia|].
    destruct (Z.eqb_spec (Type_ (e info)) 1); [lia|].
    destruct (Z.eqb_spec (Type_ (e info)) 2); [lia|]. reflexivity.
  - intros info' m m' ->.
    destruct (Type_ (e info) =? 0); [congruence|].
    destruct (Type_ (e info) =? 1); [congruence|].
    destruct (Type_ (e info) =? 2); [congruence|]. discriminate.
Qed.

Lemma Mode_translation_witness :
  FileInfo.Mode {| e := file_entry "data.txt" 42 |} = Returns 0 /\
  FileInfo.Mode {| e := dir_entry "pub" |} = Returns fs.ModeDir /\
  FileInfo.IsDir {| e := dir_entry "pub" |} = true /\
  FileInfo.Mode {| e := {| Name := "l"; Target := "t"; Type_ := EntryTypeLink; Size := 0; Time := 0 |} |}
    = Returns fs.ModeSymlink /\
  exists v, FileInfo.Mode {| e := {| Name := "x"; Target := ""; Type_ := 7; Size := 0; Time := 0 |} |}
    = Panics v.
Proof.
  split; [|split; [|split; [|split]]].
  - apply (Mode_translation {| e := file_entry "data.txt" 42 |}). reflexivity.
  - apply (Mode_translation {| e := dir_entry "pub" |}). reflexivity.
  - apply (Mode_translation {| e := dir_entry "pub" |}). reflexivity.
  - apply (Mode_translation {| e := {| Name := "l"; Target := "t"; Type_ := EntryTypeLink; Size := 0; Time := 0 |} |}).
    reflexivity.
  - eexists.
    apply (Mode_translation {| e := {| Name := "x"; Target := ""; Type_ := 7; Size := 0; Time := 0 |} |});
      simpl; unfold EntryTypeFile, EntryTypeFolder, EntryTypeLink; lia.
Defined.

End Fileinfo.

(** ** [File] *)

Section FileProps.

Context {R : Type} `{Response R}.

Implicit Types (st : R) (tr : list event).

(** C5. [Read] hands through the count of the underlying read in every
    case.  End-of-stream comes back as [io.EOF] itself, any other error
    comes back wrapped, and a read without error has no error. *)
Theorem Read_status (b : nat) st st' tr n err :
  resp_Read st b = ((n, err), st') ->
  exists status,
    File.Read b (st, tr) = ((n, status), (st', tr ++ [EvRead n err])) /\
    (err = None -> status = None) /\
    (err = Some EOF -> status = Some EOF) /\
    (forall cause, err = Some cause -> cause <> EOF -> status = Some (Wrap cause "")).
Proof.
  intros Hread. run. rewrite Hread. simpl.
  destruct err as [cause|].
  - destruct cause; simpl; eexists; (split; [reflexivity|]);
      repeat split; try congruence; intros ? [= <-] ?; congruence.
  - eexists. split; [reflexivity|]. repeat split; congruence.
Qed.

(** The drain ends with the first read that reports an error; every read
    before it reported none. *)
Lemma discard_ReadFrom_log fuel : forall n st tr out st' tr',
  discard_ReadFrom fuel n (st, tr) = (Some out, (st', tr')) ->
  exists reads k last,
    Forall ok_read reads /\
    tr' = tr ++ reads ++ [EvRead k (Some last)] /\
    snd out = (if is_EOF last then None else Some last).
Proof.
  induction fuel as [|fuel IH]; intros n st tr out st' tr'; simpl.
  - unfold ret. congruence.
  - run. destruct (resp_Read st blackHole_len) as [[k err] st1] eqn:Hread. simpl.
    destruct err as [err|].
    + intros Hout. exists [], k, err. split; [constructor|].
      destruct (is_EOF err); unfold ret in Hout; injection Hout as <- <- <-; auto.
    + intros Hout. apply IH in Hout as (reads & k' & last & Hok & -> & Hsnd).
      exists (EvRead k None :: reads), k', last. split; [|split].
      * constructor; [by exists k|done].
      * by rewrite <- !app_assoc.
      * done.
Qed.

(** While the drain is still reading, every read so far reported no
    error. *)
Lemma discard_ReadFrom_running fuel : forall n st tr st' tr',
  discard_ReadFrom fuel n (st, tr) = (None, (st', tr')) ->
  exists reads, Forall ok_read reads /\ tr' = tr ++ reads.
Proof.
  induction fuel as [|fuel IH]; intros n st tr st' tr'; simpl.
  - unfold ret. intros [= <- <-]. exists []. split; [constructor|by rewrite app_nil_r].
  - run. destruct (resp_Read st blackHole_len) as [[k err] st1] eqn:Hread. simpl.
    destruct err as [err|].
    + destruct (is_EOF err); unfold ret; congruence.
    + intros Hout. apply IH in Hout as (reads & Hok & ->).
      exists (EvRead k None :: reads). split.
      * constructor; [by exists k|done].
      * by rewrite <- !app_assoc.
Qed.

(** The log [Close] leaves: a run of reads without error, then a read that
    reported an error, and then either nothing (the error was not
    end-of-stream: the drain failed and the stream is not closed) or the
    stream's close. *)
Lemma Close_log fuel st tr res st' tr' :
  File.Close fuel (st, tr) = (res, (st', tr')) ->
  match res with
  | Some status =>
      exists reads k last,
        Forall ok_read reads /\
        ((is_EOF last = true /\ exists cerr,
            tr' = tr ++ reads ++ [EvRead k (Some last); EvClose cerr] ++ close_log cerr /\
            status = close_status cerr) \/
         (is_EOF last = false /\
            tr' = tr ++ reads ++ [EvRead k (Some last)] /\
            status = Some (Wrap last "")))
  | None => exists reads, Forall ok_read reads /\ tr' = tr ++ reads
  end.
Proof.
  unfold File.Close, io_Copy_Discard. unfold bind at 1.
  destruct (discard_ReadFrom fuel 0 (st, tr)) as [c [st1 tr1]] eqn:Hdrain.
  destruct c as [[total derr]|].
  - apply discard_ReadFrom_log in Hdrain as (reads & k & last & Hok & -> & Hsnd).
    simpl in Hsnd. destruct (is_EOF last) eqn:Heof; subst derr.
    + run. destruct (resp_Close st1) as [cerr st2]. simpl.
      intros Hclose.
      assert (res = Some (close_status cerr) /\
              tr' = (tr ++ reads ++ [EvRead k (Some last)]) ++ EvClose cerr :: close_log cerr)
        as [-> ->].
      { destruct cerr; simpl in *; injection Hclose as <- <- <-;
          rewrite <- ?app_assoc; auto. }
      exists reads, k, last. split; [done|]. left. split; [done|].
      exists cerr. by rewrite <- !app_assoc.
    + unfold ret. intros [= <- <- <-].
      exists reads, k, last. split; [done|]. right. auto.
  - unfold ret. intros [= <- <- <-].
    by apply discard_ReadFrom_running in Hdrain.
Qed.

(** On a stream already at its end the drain is a single read. *)
Lemma Close_at_end fuel st st1 tr :
  resp_Read st blackHole_len = ((0, Some EOF), st1) ->
  File.Close (S fuel) (st, tr) =
    (Some (close_status (fst (resp_Close st1))),
     (snd (resp_Close st1),
      tr ++ [EvRead 0 (Some EOF); EvClose (fst (resp_Close st1))]
         ++ close_log (fst (resp_Close st1)))).
Proof.
  intros Hread. unfold File.Close, io_Copy_Discard. simpl discard_ReadFrom.
  run. rewrite Hread. simpl.
  destruct (resp_Close st1) as [cerr st2]. simpl.
  destruct cerr; simpl; rewrite <- ?app_assoc; reflexivity.
Qed.

End FileProps.

(** *** The finite stream *)

Lemma netstream_Read_empty brk cl k :
  netstream_Read {| unread := []; broken := brk; closed := cl |} k
  = ((0, Some (default EOF brk)), {| unread := []; broken := brk; closed := cl |}).
Proof. reflexivity. Qed.

Lemma netstream_Read_data a data brk cl k :
  netstream_Read {| unread := a :: data; broken := brk; closed := cl |} k
  = ((Z.of_nat (Nat.min k (S (length data))), None),
     {| unread := drop (Nat.min k (S (length data))) (a :: data);
        broken := brk; closed := cl |}).
Proof. reflexivity. Qed.

Lemma blackHole_len_pos : (0 < blackHole_len)%nat.
Proof. unfold blackHole_len. lia. Qed.

(** Draining a finite stream takes at most one read per unread byte and one
    more for the end; it counts every unread byte and leaves none. *)
Lemma drain_netstream fuel : forall data cl n tr,
  (length data < fuel)%nat ->
  exists reads,
    Forall ok_read reads /\
    discard_ReadFrom fuel n ({| unread := data; broken := None; closed := cl |}, tr)
    = (Some (n + Z.of_nat (length data), None),
       ({| unread := []; broken := None; closed := cl |},
        tr ++ reads ++ [EvRead 0 (Some EOF)])).
Proof.
  induction fuel as [|fuel IH]; intros data cl n tr Hfuel; [lia|].
  cbn [discard_ReadFrom]. unfold Response_Read, bind, prim, emit, ret.
  cbn [resp_Read netstream_Response].
  destruct data as [|a data].
  - rewrite netstream_Read_empty. cbn [fst snd default is_EOF length].
    exists []. split; [constructor|]. reflexivity.
  - rewrite netstream_Read_data. cbn [fst snd].
    pose proof blackHole_len_pos.
    set (k := Nat.min blackHole_len (S (length data))).
    assert (1 <= k <= S (length data))%nat as Hk by (unfold k; lia).
    destruct (IH (drop k (a :: data)) cl (n + Z.of_nat k) (tr ++ [EvRead (Z.of_nat k) None]))
      as (reads & Hok & ->).
    { rewrite length_drop. cbn [length] in *. lia. }
    exists (EvRead (Z.of_nat k) None :: reads). split.
    + constructor; [by eexists|done].
    + rewrite length_drop. cbn [length]. rewrite <- !app_assoc.
      do 2 f_equal. f_equal. lia.
Qed.

(** C4. [Close] drains before it closes.  On every stream the log it
    leaves is a run of reads without error followed, once the drain has
    ended, by the read that reported an error and then either nothing (the
    error was not end-of-stream: the drain failed and the stream is not
    closed) or the stream's close; so a close is always directly preceded
    by the read that reported end-of-stream.  On a stream already at its
    end the drain is that single read, and its result is that of the
    close.  On a finite stream the drain ends, no byte is left unread and
    the stream is closed. *)
Theorem Close_drains_first :
  (forall R (HR : Response R) fuel (st st' : R) tr tr' res,
     File.Close fuel (st, tr) = (res, (st', tr')) ->
     match res with
     | Some status =>
         exists reads k last,
           Forall ok_read reads /\
           ((is_EOF last = true /\ exists cerr,
               tr' = tr ++ reads ++ [EvRead k (Some last); EvClose cerr] ++ close_log cerr /\
               status = close_status cerr) \/
            (is_EOF last = false /\
               tr' = tr ++ reads ++ [EvRead k (Some last)] /\
               status = Some (Wrap last "")))
     | None => exists reads, Forall ok_read reads /\ tr' = tr ++ reads
     end) /\
  (forall R (HR : Response R) fuel (st st1 : R) tr,
     resp_Read st blackHole_len = ((0, Some EOF), st1) ->
     File.Close (S fuel) (st, tr) =
       (Some (close_status (fst (resp_Close st1))),
        (snd (resp_Close st1),
         tr ++ [EvRead 0 (Some EOF); EvClose (fst (resp_Close st1))]
            ++ close_log (fst (resp_Close st1))))) /\
  (forall data fuel tr,
     (length data < fuel)%nat ->
     exists reads,
       Forall ok_read reads /\
       File.Close fuel ({| unread := data; broken := None; closed := false |}, tr)
       = (Some None,
          ({| unread := []; broken := None; closed := true |},
           tr ++ reads ++ [EvRead 0 (Some EOF); EvClose None]))).
Proof.
  split; [|split].
  - intros R HR fuel st st' tr tr' res. apply Close_log.
  - intros R HR fuel st st1 tr. apply Close_at_end.
  - intros data fuel tr Hfuel.
    destruct (drain_netstream fuel data false 0 tr Hfuel) as (reads & Hok & Hdrain).
    exists reads. split; [done|].
    unfold File.Close, io_Copy_Discard. unfold bind at 1. rewrite Hdrain.
    unfold Response_Close, bind, prim, emit, ret. cbn.
    by rewrite <- !app_assoc.
Qed.

Lemma Close_drains_first_witness :
  let st := {| unread := ["h"; "i"]%char; broken := None; closed := false |} in
  let st_end := {| unread := []; broken := None; closed := false |} in
  let st_closed := {| unread := []; broken := None; closed := true |} in
  File.Close 3 (st, []) =
    (Some None, (st_closed, [EvRead 2 None; EvRead 0 (Some EOF); EvClose None])) /\
  File.Close 1 (st_end, []) =
    (Some None, (st_closed, [EvRead 0 (Some EOF); EvClose None])) /\
  (exists reads k last,
     Forall ok_read reads /\
     [EvRead 2 None; EvRead 0 (Some EOF); EvClose None]
       = reads ++ [EvRead k (Some last); EvClose None] /\
     is_EOF last = true) /\
  (exists reads,
     Forall ok_read reads /\
     File.Close 3 (st, []) =
       (Some None, (st_closed, [] ++ reads ++ [EvRead 0 (Some EOF); EvClose None]))).
Proof.
  intros st st_end st_closed.
  destruct Close_drains_first as (Hlog & Hend & Hfin).
  assert (File.Close 3 (st, []) =
    (Some None, (st_closed, [EvRead 2 None; EvRead 0 (Some EOF); EvClose None]))) as Hrun
    by (vm_compute; reflexivity).
  split; [exact Hrun|]. split; [|split].
  - rewrite (Hend netstream _ 0%nat st_end st_end []); reflexivity.
  - pose proof (Hlog netstream _ 3%nat st st_closed [] _ _ Hrun) as Hshape.
    cbn beta iota in Hshape.
    destruct Hshape as (reads & k & last & Hok & [(Heof & cerr & Htr & Hres)|(_ & _ & [=])]).
    exists reads, k, last. split; [exact Hok|]. split; [|exact Heof].
    destruct cerr; [discriminate|]. exact Htr.
  - apply (Hfin ["h"; "i"]%char 3%nat []). simpl. lia.
Defined.

(** ** Resolution: [getEntry], [Stat], [Open] *)

Section Resolution.

Context {S R : Type} `{ServerConn S R}.

Implicit Types (st : S) (tr : list event) (name : string) (es : list Entry).

Lemma scan_Some base es ent :
  FS.scan base es = Some ent <->
  exists before after,
    es = before ++ ent :: after /\ Name ent = base /\
    Forall (fun x => Name x <> base) before.
Proof.
  induction es as [|x es IH]; simpl.
  - split; [discriminate|]. intros ([|? ?] & ? & ? & _); discriminate.
  - destruct (String.eqb_spec (Name x) base) as [Heq|Hne].
    + split.
      * intros [= <-]. exists [], es. auto.
      * intros ([|y before] & after & Hes & Hname & Hbefore).
        -- simpl in Hes. congruence.
        -- simpl in Hes. injection Hes as <- _. inversion Hbefore; contradiction.
    + rewrite IH. split.
      * intros (before & after & -> & Hname & Hbefore).
        exists (x :: before), after. auto.
      * intros ([|y before] & after & Hes & Hname & Hbefore).
        -- simpl in Hes. injection Hes as <- _. contradiction.
        -- simpl in Hes. injection Hes as <- ->.
           exists before, after. inversion Hbefore; auto.
Qed.

Lemma scan_None base es :
  FS.scan base es = None <-> Forall (fun x => Name x <> base) es.
Proof.
  induction es as [|x es IH]; simpl.
  - split; [constructor|done].
  - destruct (String.eqb_spec (Name x) base) as [Heq|Hne].
    + split; [discriminate|]. inversion 1; contradiction.
    + rewrite IH. split; [by constructor|]. by inversion 1.
Qed.

(** The scan finds an entry exactly when some entry has the name. *)
Lemma scan_is_Some base es :
  is_Some (FS.scan base es) <-> exists ent, ent ∈ es /\ Name ent = base.
Proof.
  split.
  - intros [ent (before & after & -> & Hname & _)%scan_Some].
    exists ent. split; [|done]. apply elem_of_app. right. by left.
  - intros (ent & Hin & Hname).
    destruct (FS.scan base es) eqn:Hscan; [by eexists|].
    apply scan_None in Hscan. rewrite Forall_forall in Hscan.
    by destruct (Hscan ent Hin).
Qed.

(** [getEntry] issues one listing, of [path.Dir(name)], and scans its
    reply for [path.Base(name)]. *)
Lemma getEntry_run name st tr :
  FS.getEntry name (st, tr) =
    (match fst (conn_List st (path.Dir name)) with
     | Err err => Err (Wrap err (path.Dir name))
     | Ok es =>
         match FS.scan (path.Base name) es with
         | Some ent => Ok ent
         | None => Err (Errorf "%s %+v" [FmtString (path.Base name); FmtEntries es])
         end
     end,
     (snd (conn_List st (path.Dir name)), tr ++ [EvList (path.Dir name)])).
Proof.
  run. destruct (conn_List st (path.Dir name)) as [[es|err] st']; simpl; [|done].
  by destruct (FS.scan (path.Base name) es).
Qed.

Lemma Stat_run name st tr :
  FS.Stat name (st, tr) =
    (match fst (FS.getEntry name (st, tr)) with
     | Err err => Err (Wrap err "")
     | Ok ent => Ok {| e := ent |}
     end,
     (snd (conn_List st (path.Dir name)), tr ++ [EvList (path.Dir name)])).
Proof.
  unfold FS.Stat, bind. rewrite getEntry_run. simpl.
  destruct (fst (conn_List st (path.Dir name))) as [es|err]; [|done].
  by destruct (FS.scan (path.Base name) es).
Qed.

Lemma Stat_succeeds_iff name st tr :
  (exists info w, FS.Stat name (st, tr) = (Ok info, w)) <->
  (exists es st', conn_List st (path.Dir name) = (Ok es, st') /\
     exists ent, ent ∈ es /\ Name ent = path.Base name).
Proof.
  rewrite Stat_run, getEntry_run. simpl.
  destruct (conn_List st (path.Dir name)) as [[es|err] st'] eqn:Hlist; simpl.
  - destruct (FS.scan (path.Base name) es) as [ent|] eqn:Hscan.
    + split; [|by eauto]. intros _. exists es, st'. split; [done|].
      apply scan_is_Some. by rewrite Hscan.
    + split; [by intros (? & ? & ?)|].
      intros (es' & st'' & [= <- <-] & Hex).
      apply scan_is_Some in Hex. rewrite Hscan in Hex. by destruct Hex.
  - split; [by intros (? & ? & ?)|]. by intros (? & ? & ? & _).
Qed.

Lemma Stat_returns_first_match name st tr info w :
  FS.Stat name (st, tr) = (Ok info, w) ->
  FileInfo.Name info = path.Base name /\
  exists es st' before after,
    conn_List st (path.Dir name) = (Ok es, st') /\
    es = before ++ e info :: after /\
    Forall (fun x => Name x <> path.Base name) before.
Proof.
  rewrite Stat_run, getEntry_run. simpl.
  destruct (conn_List st (path.Dir name)) as [[es|err] st'] eqn:Hlist; simpl;
    [|discriminate].
  destruct (FS.scan (path.Base name) es) as [ent|] eqn:Hscan; [|discriminate].
  apply scan_Some in Hscan as (before & after & Hes & Hname & Hbefore).
  intros [= <- <-]. split; [done|]. exists es, st', before, after. auto.
Qed.

(** C1. [Stat(p)] succeeds exactly when the listing of [path.Dir(p)]
    succeeds and has an entry whose name is [path.Base(p)], byte for byte.
    The metadata returned then bears that name and is the first such entry
    of the listing. *)
Theorem Stat_resolves name st tr :
  ((exists info w, FS.Stat name (st, tr) = (Ok info, w)) <->
   (exists es st', conn_List st (path.Dir name) = (Ok es, st') /\
      exists ent, ent ∈ es /\ Name ent = path.Base name)) /\
  (forall info w, FS.Stat name (st, tr) = (Ok info, w) ->
     FileInfo.Name info = path.Base name /\
     exists es st' before after,
       conn_List st (path.Dir name) = (Ok es, st') /\
       es = before ++ e info :: after /\
       Forall (fun x => Name x <> path.Base name) before).
Proof.
  split.
  - apply Stat_succeeds_iff.
  - intros info w. apply Stat_returns_first_match.
Qed.

Lemma getEntry_not_found name st st' tr es :
  conn_List st (path.Dir name) = (Ok es, st') ->
  Forall (fun x => Name x <> path.Base name) es ->
  FS.getEntry name (st, tr) =
    (Err (Errorf "%s %+v" [FmtString (path.Base name); FmtEntries es]),
     (st', tr ++ [EvList (path.Dir name)])).
Proof.
  intros Hlist Hnone%scan_None. rewrite getEntry_run, Hlist. simpl. by rewrite Hnone.
Qed.

(** C7. When the listing succeeds and no entry has the base name, [Stat]
    and [Open] fail with the error [errors.Errorf("%s %+v", base, derefed)],
    wrapped once: its operands are the base name and the whole listing, in
    the order the session returned it. *)
Theorem NotFound_carries_base_and_siblings name st st' tr es :
  conn_List st (path.Dir name) = (Ok es, st') ->
  Forall (fun x => Name x <> path.Base name) es ->
  let not_found :=
    Wrap (Errorf "%s %+v" [FmtString (path.Base name); FmtEntries es]) "" in
  FS.Stat name (st, tr) = (Err not_found, (st', tr ++ [EvList (path.Dir name)])) /\
  FS.Open name (st, tr) = (Err not_found, (st', tr ++ [EvList (path.Dir name)])).
Proof.
  intros Hlist Hnone. simpl. split.
  - unfold FS.Stat, bind. by rewrite (getEntry_not_found name st st' tr es).
  - unfold FS.Open, bind. by rewrite (getEntry_not_found name st st' tr es).
Qed.

(** C3. [Open] issues the listing of the parent first and the retrieve
    only once the scan has found the entry.  When no entry of the listing
    has the base name it fails with the not-found error and the only call
    issued is the listing; the same when the listing itself fails.  In
    every run the calls issued are the listing alone, with an error
    returned, or the listing followed by the retrieve, and then the scan
    had found an entry. *)
Theorem Open_resolves_before_retrieve name st tr :
  (forall es st',
     conn_List st (path.Dir name) = (Ok es, st') ->
     Forall (fun x => Name x <> path.Base name) es ->
     FS.Open name (st, tr) =
       (Err (Wrap (Errorf "%s %+v" [FmtString (path.Base name); FmtEntries es]) ""),
        (st', tr ++ [EvList (path.Dir name)]))) /\
  (forall err st',
     conn_List st (path.Dir name) = (Err err, st') ->
     FS.Open name (st, tr) =
       (Err (Wrap (Wrap err (path.Dir name)) ""), (st', tr ++ [EvList (path.Dir name)]))) /\
  (forall r st' tr',
     FS.Open name (st, tr) = (r, (st', tr')) ->
     (tr' = tr ++ [EvList (path.Dir name)] /\ exists err, r = Err err) \/
     (tr' = tr ++ [EvList (path.Dir name); EvRetr name] /\
        exists es st1 ent,
          conn_List st (path.Dir name) = (Ok es, st1) /\
          FS.scan (path.Base name) es = Some ent)).
Proof.
  split; [|split].
  - intros es st' Hlist Hnone.
    unfold FS.Open, bind. by rewrite (getEntry_not_found name st st' tr es).
  - intros err st' Hlist. unfold FS.Open, bind. by rewrite getEntry_run, Hlist.
  - intros r st' tr'. unfold FS.Open, bind. rewrite getEntry_run.
    destruct (conn_List st (path.Dir name)) as [[es|err] st1] eqn:Hlist; simpl.
    + destruct (FS.scan (path.Base name) es) as [ent|] eqn:Hscan.
      * run. destruct (conn_Retr st1 name) as [[resp|err] st2]; simpl;
          intros [= <- <- <-]; right; rewrite <- app_assoc; eauto 10.
      * unfold ret. intros [= <- <- <-]. left. eauto.
    + unfold ret. intros [= <- <- <-]. left. eauto.
Qed.

End Resolution.

(** ** Insertion sort meets the contract of [sort.Slice] *)

Section InsertionSort.

Context {A : Type} (less : A -> A -> bool).

Implicit Types (l p s rest : list A) (x y : A).

(** No element is [less] than one before it. *)
Let ordered x y : Prop := less y x = false.

Lemma swap_adjacent p x y rest :
  swap (p ++ y :: x :: rest) (S (length p)) (length p) = p ++ x :: y :: rest.
Proof.
  unfold swap.
  assert ((p ++ y :: x :: rest) !! S (length p) = Some x) as ->.
  { rewrite lookup_app_r by lia. by replace (S (length p) - length p)%nat with 1%nat by lia. }
  assert ((p ++ y :: x :: rest) !! length p = Some y) as ->.
  { rewrite lookup_app_r by lia. by rewrite Nat.sub_diag. }
  rewrite !insert_app_r_alt by lia.
  rewrite Nat.sub_diag. by replace (S (length p) - length p)%nat with 1%nat by lia.
Qed.

(** One step of the inner loop, on the slice split at the index. *)
Lemma sift_down_snoc p y x rest :
  sift_down less (S (length p)) (p ++ y :: x :: rest) =
    if less x y then sift_down less (length p) (p ++ x :: y :: rest)
    else p ++ y :: x :: rest.
Proof.
  cbn [sift_down].
  assert ((p ++ y :: x :: rest) !! S (length p) = Some x) as ->.
  { rewrite lookup_app_r by lia. by replace (S (length p) - length p)%nat with 1%nat by lia. }
  assert ((p ++ y :: x :: rest) !! length p = Some y) as ->.
  { rewrite lookup_app_r by lia. by rewrite Nat.sub_diag. }
  by rewrite swap_adjacent.
Qed.

Lemma Sorted_insert_after p : forall y x s,
  Sorted ordered (p ++ y :: s) -> ordered y x -> HdRel ordered x s ->
  Sorted ordered (p ++ y :: x :: s).
Proof.
  induction p as [|z p IH]; intros y x s Hsorted Hyx Hxs; cbn [app] in *.
  - apply Sorted_inv in Hsorted as [Hs Hys].
    repeat constructor; done.
  - apply Sorted_inv in Hsorted as [Hs Hz].
    constructor; [by apply IH|].
    destruct p; cbn [app] in *; inversion Hz; by constructor.
Qed.

(** The inner loop moves the element at the index down into the part
    before it and touches nothing else; when that part and what follows
    the element are in order, so is the outcome. *)
Lemma sift_down_spec p : forall x s rest,
  exists q,
    sift_down less (length p) (p ++ x :: s ++ rest) = q ++ s ++ rest /\
    q ≡ₚ p ++ [x] /\
    ((forall a b, less a b = true -> less b a = false) ->
     Sorted ordered (p ++ s) -> HdRel ordered x s -> Sorted ordered (q ++ s)).
Proof.
  induction p as [|y p IH] using rev_ind; intros x s rest.
  - exists [x]. split; [done|]. split; [done|].
    intros _ Hs Hx. cbn [app] in *. by constructor.
  - rewrite length_app, Nat.add_1_r, <- app_assoc. cbn [app].
    rewrite sift_down_snoc. destruct (less x y) eqn:Hless.
    + destruct (IH x (y :: s) rest) as (q & Heq & Hperm & Hsorted).
      exists (q ++ [y]). split; [|split].
      * rewrite <- app_assoc. exact Heq.
      * rewrite Hperm, <- !app_assoc. apply Permutation_app_head, perm_swap.
      * intros Hasym Hs Hx. rewrite <- app_assoc in *. cbn [app] in *.
        apply Hsorted; [done|done|]. constructor. by apply Hasym.
    + exists (p ++ [y; x]). split; [|split].
      * by rewrite <- app_assoc.
      * by rewrite <- !app_assoc.
      * intros _ Hs Hx. rewrite <- app_assoc in *. cbn [app] in *.
        by apply Sorted_insert_after.
Qed.

Lemma insertion_loop_spec rest : forall p,
  insertion_loop less (length rest) (length p) (p ++ rest) ≡ₚ p ++ rest /\
  ((forall a b, less a b = true -> less b a = false) ->
   Sorted ordered p ->
   Sorted ordered (insertion_loop less (length rest) (length p) (p ++ rest))).
Proof.
  induction rest as [|x rest IH]; intros p.
  - cbn [length insertion_loop]. rewrite app_nil_r. auto.
  - cbn [length insertion_loop].
    destruct (sift_down_spec p x [] rest) as (q & Heq & Hperm & Hsorted).
    cbn [app] in Heq. rewrite Heq.
    assert (S (length p) = length q) as ->.
    { rewrite (Permutation_length Hperm), length_app. cbn [length]. lia. }
    destruct (IH q) as [Hperm' Hsorted']. split.
    + rewrite Hperm', Hperm, <- app_assoc. done.
    + intros Hasym Hp. apply Hsorted'; [done|].
      rewrite <- (app_nil_r q). apply Hsorted; [done| |constructor].
      by rewrite app_nil_r.
Qed.

Lemma insertionSort_perm l : insertionSort less l ≡ₚ l.
Proof.
  unfold insertionSort. destruct l as [|x l]; [done|].
  replace (length (x :: l) - 1)%nat with (length l) by (cbn [length]; lia).
  apply (insertion_loop_spec l [x]).
Qed.

Lemma insertionSort_sorted l :
  transitive_ordering less -> Sorted ordered (insertionSort less l).
Proof.
  intros [Hirrefl Htrans _].
  unfold insertionSort. destruct l as [|x l]; [constructor|].
  replace (length (x :: l) - 1)%nat with (length l) by (cbn [length]; lia).
  apply (insertion_loop_spec l [x]).
  - intros a b Hab. destruct (less b a) eqn:Hba; [|done].
    rewrite <- (Hirrefl a). symmetry. by apply (Htrans a b a).
  - repeat constructor.
Qed.

End InsertionSort.

Lemma insertionSort_SortSliceSpec : @SortSliceSpec insertionSort_SortSlice.
Proof.
  split.
  - intros A less l. apply insertionSort_perm.
  - intros A less l. apply insertionSort_sorted.
Qed.

(** ** [ReadDir] *)

Lemma ltb_false_leb (s1 s2 : string) :
  String.ltb s1 s2 = false <-> String.leb s2 s1 = true.
Proof.
  unfold String.ltb, String.leb. rewrite (String.compare_antisym s1 s2).
  destruct (String.compare s2 s1); simpl; split; congruence.
Qed.

Lemma ltb_true_leb (s1 s2 : string) :
  String.ltb s1 s2 = true <-> String.leb s2 s1 = false.
Proof.
  unfold String.ltb, String.leb. rewrite (String.compare_antisym s1 s2).
  destruct (String.compare s2 s1); simpl; split; congruence.
Qed.

Lemma ltb_leb_ne (s1 s2 : string) :
  String.ltb s1 s2 = true <-> String.leb s1 s2 = true /\ s1 <> s2.
Proof.
  unfold String.ltb, String.leb.
  destruct (String.compare s1 s2) eqn:Hc; simpl.
  - apply String.compare_eq_iff in Hc. split; [discriminate|]. by intros [_ ?].
  - split; [|done]. intros _. split; [done|]. intros ->.
    pose proof (String.compare_antisym s2 s2) as Ha. rewrite Hc in Ha. discriminate.
  - split; [discriminate|]. by intros [? _].
Qed.

Lemma leb_trans (s1 s2 s3 : string) :
  String.leb s1 s2 = true -> String.leb s2 s3 = true -> String.leb s1 s3 = true.
Proof.
  intros H1%Is_true_true H2%Is_true_true. apply Is_true_true.
  exact (transitivity (R := String.le) H1 H2).
Qed.

(** The comparison of [ReadDir] is a transitive ordering, as [sort.Slice]
    asks. *)
Lemma less_Name_ordering : transitive_ordering less_Name.
Proof.
  unfold less_Name. split.
  - intros x. apply ltb_false_leb.
    apply Is_true_true, (reflexive_eq (R := String.le)). done.
  - intros x y z Hxy%ltb_true_leb Hyz%ltb_true_leb. apply ltb_true_leb.
    destruct (String.leb (Name z) (Name x)) eqn:Hzx; [|done].
    destruct (String.leb_total (Name x) (Name y)) as [Hle|Hle].
    + rewrite <- Hyz. symmetry. by apply (leb_trans _ (Name x)).
    + congruence.
  - intros x y z Hxy%ltb_false_leb Hyz%ltb_false_leb. apply ltb_false_leb.
    by apply (leb_trans _ (Name y)).
Qed.

Lemma StronglySorted_filter {A} (Rel : relation A) (P : A -> Prop)
    `{forall x, Decision (P x)} (l : list A) :
  StronglySorted Rel l -> StronglySorted Rel (filter P l).
Proof.
  induction 1 as [|x l Hl IH Hx]; [constructor|].
  rewrite filter_cons. destruct (decide (P x)); [|done].
  constructor; [done|].
  rewrite Forall_forall in *. intros y [_ Hy]%list_elem_of_filter. auto.
Qed.

Lemma NoDup_fmap_inj_on {A B} (f : A -> B) (l : list A) x y :
  NoDup (f <$> l) -> x ∈ l -> y ∈ l -> f x = f y -> x = y.
Proof.
  induction l as [|z l IH]; csimpl; [by intros _ ?%elem_of_nil|].
  intros [Hz Hl]%NoDup_cons [->|Hx]%elem_of_cons [->|Hy]%elem_of_cons Hf; auto.
  - destruct Hz. rewrite Hf. by apply list_elem_of_fmap_2.
  - destruct Hz. rewrite <- Hf. by apply list_elem_of_fmap_2.
Qed.

Lemma collect_filter (es : list Entry) :
  FS.collect es =
    (fun x => FileInfoToDirEntry {| e := x |}) <$> filter (fun x => ~ is_dot_name (Name x)) es.
Proof.
  induction es as [|x es IH]; [done|]. cbn [FS.collect].
  rewrite filter_cons. unfold is_dot_name at 1.
  destruct (String.eqb_spec (Name x) ".") as [Hdot|Hdot].
  { case_decide as Hd; [destruct Hd; by left|done]. }
  destruct (String.eqb_spec (Name x) "..") as [Hdots|Hdots].
  { case_decide as Hd; [destruct Hd; by right|done]. }
  case_decide as Hd; [|by destruct Hd].
  csimpl. by rewrite IH.
Qed.

Lemma raw_entries_collect (es : list Entry) :
  raw_entries (FS.collect es) = filter (fun x => ~ is_dot_name (Name x)) es.
Proof.
  rewrite collect_filter. unfold raw_entries.
  rewrite <- list_fmap_compose. apply list_fmap_id.
Qed.

Section ReadDirProps.

Context {S R : Type} {conn : ServerConn S R}.
Context {sorter : SortSlice} {sorter_ok : SortSliceSpec}.

Implicit Types (st : S) (tr : list event) (name : string) (es : list Entry).

(** The order [sort.Slice] leaves the entries in. *)
Let by_name (x y : Entry) : Prop := less_Name y x = false.

Lemma ReadDir_run name st tr :
  FS.ReadDir name (st, tr) =
    (match fst (conn_List st name) with
     | Err err => Err (Wrap err "")
     | Ok es => Ok (FS.collect (sort_Slice less_Name es))
     end,
     (snd (conn_List st name), tr ++ [EvList name])).
Proof. run. by destruct (conn_List st name) as [[es|err] st']. Qed.

Lemma sort_Slice_strongly_sorted es :
  StronglySorted by_name (sort_Slice less_Name es).
Proof.
  apply Sorted_StronglySorted.
  - intros x y z Hxy Hyz. unfold by_name in *.
    by apply (less_incomp _ less_Name_ordering z y x).
  - apply sort_Slice_sorted, less_Name_ordering.
Qed.

(** What [ReadDir] keeps of the sorted listing. *)
Lemma kept_strongly_sorted es :
  StronglySorted by_name (filter (fun x => ~ is_dot_name (Name x)) (sort_Slice less_Name es)).
Proof. apply StronglySorted_filter, sort_Slice_strongly_sorted. Qed.

Lemma kept_perm es :
  filter (fun x => ~ is_dot_name (Name x)) (sort_Slice less_Name es)
  ≡ₚ filter (fun x => ~ is_dot_name (Name x)) es.
Proof. by rewrite (sort_Slice_perm _ less_Name es). Qed.

(** With pairwise distinct names the order is strict and does not depend
    on the order of the listing. *)
Lemma kept_strict es :
  NoDup (Name <$> filter (fun x => ~ is_dot_name (Name x)) es) ->
  StronglySorted (fun x y => less_Name x y = true)
    (filter (fun x => ~ is_dot_name (Name x)) (sort_Slice less_Name es)).
Proof.
  intros Hnodup. rewrite <- (kept_perm es) in Hnodup.
  pose proof (kept_strongly_sorted es) as Hsorted.
  induction Hsorted as [|x l Hl IH Hx]; [constructor|].
  csimpl in Hnodup. apply NoDup_cons in Hnodup as [Hx_notin Hnodup].
  constructor; [by apply IH|].
  rewrite Forall_forall in *. intros y Hy.
  specialize (Hx y Hy). unfold by_name, less_Name in *.
  apply ltb_leb_ne. split; [by apply ltb_false_leb|].
  intros Heq. apply Hx_notin. rewrite Heq. by apply list_elem_of_fmap_2.
Qed.

Lemma kept_unique es es2 :
  NoDup (Name <$> filter (fun x => ~ is_dot_name (Name x)) es) -> es2 ≡ₚ es ->
  filter (fun x => ~ is_dot_name (Name x)) (sort_Slice less_Name es2)
  = filter (fun x => ~ is_dot_name (Name x)) (sort_Slice less_Name es).
Proof.
  intros Hnodup Hperm.
  apply (StronglySorted_unique_strong by_name);
    [|apply kept_strongly_sorted..|].
  - intros x1 x2 Hx1 Hx2 H12 H21.
    rewrite (kept_perm es2), Hperm in Hx1. rewrite (kept_perm es) in Hx2.
    apply (NoDup_fmap_inj_on Name (filter (fun x => ~ is_dot_name (Name x)) es));
      [done..|].
    unfold by_name, less_Name in *.
    apply String.leb_antisym; by apply ltb_false_leb.
  - by rewrite !kept_perm, Hperm.
Qed.

End ReadDirProps.

Section ReadDirClaims.

Context {S R : Type} {conn : ServerConn S R}.
Context {sorter : SortSlice} {sorter_ok : SortSliceSpec}.

Implicit Types (st : S) (tr : list event) (name : string) (es : list Entry).

(** C2 (amended). When the listing succeeds, [ReadDir] returns the entries
    of the listing other than those named [.] and [..], whatever their
    type, each once per occurrence, in lexicographic order of their names.
    The order is not strict when the listing repeats a name.  When the
    names kept are pairwise distinct the order is strict and the result is
    the same sequence for every order in which the same entries are
    listed. *)
Theorem ReadDir_sorted_without_dots name st st' tr es :
  conn_List st name = (Ok es, st') ->
  exists ds,
    FS.ReadDir name (st, tr) = (Ok ds, (st', tr ++ [EvList name])) /\
    (forall d, d ∈ ds -> ~ is_dot_name (DirEntry_Name d)) /\
    raw_entries ds ≡ₚ filter (fun x => ~ is_dot_name (Name x)) es /\
    StronglySorted name_le ds /\
    (NoDup (Name <$> filter (fun x => ~ is_dot_name (Name x)) es) ->
       StronglySorted name_lt ds /\
       forall name2 st2 st2' tr2 es2,
         conn_List st2 name2 = (Ok es2, st2') -> es2 ≡ₚ es ->
         FS.ReadDir name2 (st2, tr2) = (Ok ds, (st2', tr2 ++ [EvList name2]))).
Proof.
  intros Hlist. exists (FS.collect (sort_Slice less_Name es)).
  split; [by rewrite ReadDir_run, Hlist|].
  split; [|split; [|split]].
  - intros d. rewrite collect_filter.
    intros (x & -> & [Hx _]%list_elem_of_filter)%list_elem_of_fmap. exact Hx.
  - rewrite raw_entries_collect. apply kept_perm.
  - rewrite collect_filter.
    apply (StronglySorted_fmap _ (fun x y => less_Name y x = false)).
    + intros x y Hxy. unfold name_le, less_Name in *. by apply ltb_false_leb.
    + apply kept_strongly_sorted.
  - intros Hnodup. split.
    + rewrite collect_filter.
      apply (StronglySorted_fmap _ (fun x y => less_Name x y = true)).
      * intros x y Hxy. exact Hxy.
      * by apply kept_strict.
    + intros name2 st2 st2' tr2 es2 Hlist2 Hperm.
      rewrite ReadDir_run, Hlist2. cbn [fst snd].
      by rewrite !collect_filter, (kept_unique es es2).
Qed.


End ReadDirClaims.

(** ** The operations on concrete collaborators *)

Lemma Read_status_witness :
  let st := {| unread := ["h"; "i"]%char; broken := None; closed := false |} in
  let st_end := {| unread := []; broken := None; closed := false |} in
  let st_bad := {| unread := []; broken := Some (Foreign "connection reset"); closed := false |} in
  (exists w, File.Read 1 (st, []) = ((1, None), w)) /\
  (exists w, File.Read 1 (st_end, []) = ((0, Some EOF), w)) /\
  (exists w, File.Read 1 (st_bad, []) = ((0, Some (Wrap (Foreign "connection reset") "")), w)).
Proof.
  intros st st_end st_bad. split; [|split].
  - edestruct (Read_status 1 st) as (status & Hrun & Hnone & _); [reflexivity|].
    rewrite Hrun, (Hnone eq_refl). by eexists.
  - edestruct (Read_status 1 st_end) as (status & Hrun & _ & Heof & _); [reflexivity|].
    rewrite Hrun, (Heof eq_refl). by eexists.
  - edestruct (Read_status 1 st_bad) as (status & Hrun & _ & _ & Hother); [reflexivity|].
    rewrite Hrun, (Hother _ eq_refl) by discriminate. by eexists.
Defined.

Lemma Stat_resolves_witness :
  conn_List demo_server (path.Dir "/x/z") = (Ok [file_entry "z" 1], demo_server) /\
  path.Base "/x/z" = "z" /\
  exists info w, FS.Stat "/x/z" (demo_server, []) = (Ok info, w) /\ FileInfo.Name info = "z".
Proof.
  split; [reflexivity|]. split; [reflexivity|].
  destruct (Stat_resolves "/x/z" demo_server []) as [[_ Hiff] Hname].
  destruct Hiff as (info & w & Hstat).
  { exists [file_entry "z" 1], demo_server. split; [reflexivity|].
    exists (file_entry "z" 1). split; [by left|reflexivity]. }
  exists info, w. split; [exact Hstat|].
  by destruct (Hname info w Hstat) as [-> _].
Defined.

Lemma NotFound_carries_base_and_siblings_witness :
  FS.Stat "/x/y" (demo_server, [])
  = (Err (Wrap (Errorf "%s %+v" [FmtString "y"; FmtEntries [file_entry "z" 1]]) ""),
     (demo_server, [EvList "/x"])).
Proof.
  apply (NotFound_carries_base_and_siblings "/x/y" demo_server demo_server [] [file_entry "z" 1]).
  - reflexivity.
  - repeat constructor. simpl. discriminate.
Defined.

Lemma Open_resolves_before_retrieve_witness :
  FS.Open "/x/y" (demo_server, [])
  = (Err (Wrap (Errorf "%s %+v" [FmtString "y"; FmtEntries [file_entry "z" 1]]) ""),
     (demo_server, [EvList "/x"])) /\
  (exists f, FS.Open "/x/z" (demo_server, [])
     = (Ok f, (demo_server, [EvList "/x"; EvRetr "/x/z"]))).
Proof.
  split.
  - apply (Open_resolves_before_retrieve "/x/y" demo_server []).
    + reflexivity.
    + repeat constructor. simpl. discriminate.
  - destruct (FS.Open "/x/z" (demo_server, [])) as [r [st' tr']] eqn:Hopen.
    destruct (Open_resolves_before_retrieve "/x/z" demo_server []) as (_ & _ & Hlog).
    destruct (Hlog r st' tr' Hopen) as [[-> [err ->]]|[-> _]];
      vm_compute in Hopen; [discriminate|].
    injection Hopen as <- <-. by eexists.
Defined.

Lemma ReadDir_sorted_without_dots_witness :
  exists ds,
    FS.ReadDir (sorter := insertionSort_SortSlice) "/pub" (demo_server, [])
      = (Ok ds, (demo_server, [EvList "/pub"])) /\
    DirEntry_Name <$> ds = ["a.txt"; "b.txt"] /\
    StronglySorted name_lt ds.
Proof.
  destruct (ReadDir_sorted_without_dots (sorter_ok := insertionSort_SortSliceSpec)
              "/pub" demo_server demo_server []
              [dir_entry "."; dir_entry ".."; file_entry "b.txt" 2; file_entry "a.txt" 1])
    as (ds & Hrun & _ & _ & _ & Hstrict); [reflexivity|].
  exists ds. split; [exact Hrun|].
  split.
  - vm_compute in Hrun. by injection Hrun as <-.
  - apply Hstrict. apply (bool_decide_unpack _). vm_compute. exact I.
Defined.


(** C2, as stated, fails on a listing that repeats a name: both entries are
    returned, so the names are not strictly ordered, and the two orders of
    the same listing give two different results. *)
Lemma ReadDir_repeated_name_counterexample :
  let ReadDir dir :=
    fst (FS.ReadDir (sorter := insertionSort_SortSlice) dir (demo_server, [])) in
  conn_List demo_server "/dup" = (Ok [file_entry "a" 1; file_entry "a" 2], demo_server) /\
  conn_List demo_server "/dup2" = (Ok [file_entry "a" 2; file_entry "a" 1], demo_server) /\
  [file_entry "a" 2; file_entry "a" 1] ≡ₚ [file_entry "a" 1; file_entry "a" 2] /\
  exists ds ds2,
    ReadDir "/dup" = Ok ds /\ ReadDir "/dup2" = Ok ds2 /\
    DirEntry_Name <$> ds = ["a"; "a"] /\
    ~ StronglySorted name_lt ds /\
    ds <> ds2.
Proof.
  cbn zeta. split; [reflexivity|]. split; [reflexivity|]. split; [apply perm_swap|].
  eexists _, _. split; [vm_compute; reflexivity|]. split; [vm_compute; reflexivity|].
  split; [reflexivity|]. split.
  - intros Hsorted. apply StronglySorted_inv in Hsorted as [_ Hhd].
    apply Forall_inv in Hhd. vm_compute in Hhd. discriminate.
  - discriminate.
Qed.


(** ** Go's [path] package *)

Section PathFacts.

Import path.

Local Abbreviation chars := list_ascii_of_string.

Implicit Types (p q : string) (c : ascii) (i j : nat).

(** Strings as lists of bytes. *)
Lemma chars_inj p q : chars p = chars q -> p = q.
Proof.
  intros Heq. rewrite <- (string_of_list_ascii_of_string p), Heq.
  apply string_of_list_ascii_of_string.
Qed.

Lemma chars_length p : length (chars p) = len p.
Proof. induction p; simpl; [done|]. unfold len in *. simpl. by f_equal. Qed.

Lemma chars_get p : forall i, String.get i p = chars p !! i.
Proof. induction p as [|c p IH]; intros [|i]; simpl; auto. Qed.

Lemma chars_append p q : chars (p +:+ q) = chars p ++ chars q.
Proof. induction p as [|c p IH]; simpl; [done|]. by rewrite IH. Qed.

Lemma chars_substring p : forall i n,
  chars (String.substring i n p) = take n (drop i (chars p)).
Proof.
  induction p as [|c p IH]; intros [|i] [|n]; simpl; rewrite ?IH; done.
Qed.

Lemma chars_slice p i j : chars (slice p i j) = take (j - i) (drop i (chars p)).
Proof. apply chars_substring. Qed.

Lemma byte_at_chars p i : byte_at p i = default Ascii.zero (chars p !! i).
Proof. unfold byte_at. by rewrite chars_get. Qed.

Lemma len_append p q : len (p +:+ q) = (len p + len q)%nat.
Proof. by rewrite <- !chars_length, chars_append, length_app. Qed.

Lemma byte_at_append_r p q i :
  (len p <= i)%nat -> byte_at (p +:+ q) i = byte_at q (i - len p).
Proof.
  intros Hi. rewrite !byte_at_chars, chars_append.
  rewrite lookup_app_r by (rewrite chars_length; lia). by rewrite chars_length.
Qed.

Lemma slice_append_l p q : slice (p +:+ q) 0 (len p) = p.
Proof.
  apply chars_inj. rewrite chars_slice, chars_append, Nat.sub_0_r, drop_0.
  rewrite take_app_length' by (symmetry; apply chars_length). done.
Qed.

Lemma slice_all p : slice p 0 (len p) = p.
Proof.
  apply chars_inj. rewrite chars_slice, Nat.sub_0_r, drop_0.
  apply take_ge. by rewrite chars_length.
Qed.

Lemma eqb_empty p : String.eqb p "" = true <-> p = "".
Proof. apply String.eqb_eq. Qed.

(** *** The fuel of the loops is enough *)

Lemma copy_element_advances fuel : forall p r out,
  (r <= fst (copy_element fuel p r out))%nat.
Proof.
  induction fuel as [|fuel IH]; intros p r out; simpl; [done|].
  destruct ((r <? len p)%nat && negb (Ascii.eqb (byte_at p r) slash)); [|done].
  specialize (IH p (S r) (append out (byte_at p r))). lia.
Qed.

Lemma copy_element_fuel fuel1 : forall fuel2 p r out,
  (len p - r <= fuel1)%nat -> (len p - r <= fuel2)%nat ->
  copy_element fuel1 p r out = copy_element fuel2 p r out.
Proof.
  induction fuel1 as [|fuel1 IH]; intros [|fuel2] p r out H1 H2; cbn [copy_element];
    try done.
  - destruct (Nat.ltb_spec r (len p)); [lia|done].
  - destruct (Nat.ltb_spec r (len p)); [lia|done].
  - destruct ((r <? len p)%nat && negb (Ascii.eqb (byte_at p r) slash)) eqn:Hc; [|done].
    apply andb_true_iff in Hc as [Hr%Nat.ltb_lt _]. apply IH; lia.
Qed.

Lemma backtrack_fuel fuel1 : forall fuel2 dotdot out,
  (w out <= fuel1)%nat -> (w out <= fuel2)%nat ->
  backtrack fuel1 dotdot out = backtrack fuel2 dotdot out.
Proof.
  induction fuel1 as [|fuel1 IH]; intros [|fuel2] dotdot out H1 H2; cbn [backtrack];
    try done.
  - destruct (Nat.ltb_spec dotdot (w out)); [lia|done].
  - destruct (Nat.ltb_spec dotdot (w out)); [lia|done].
  - destruct ((dotdot <? w out)%nat && negb (Ascii.eqb (index out (w out)) slash)); [|done].
    apply IH; cbn; lia.
Qed.

Lemma clean_loop_fuel fuel1 : forall fuel2 p rooted r dotdot out,
  (len p - r <= fuel1)%nat -> (len p - r <= fuel2)%nat ->
  clean_loop fuel1 p rooted r dotdot out = clean_loop fuel2 p rooted r dotdot out.
Proof.
  induction fuel1 as [|fuel1 IH]; intros fuel2 p rooted r dotdot out H1 H2.
  - destruct fuel2 as [|fuel2]; [done|]. cbn [clean_loop].
    destruct (Nat.ltb_spec r (len p)); [lia|done].
  - destruct fuel2 as [|fuel2].
    { cbn [clean_loop]. destruct (Nat.ltb_spec r (len p)); [lia|done]. }
    cbn [clean_loop].
    destruct (Nat.ltb_spec r (len p)) as [Hr|Hr]; [|done]. cbn [negb].
    destruct (Ascii.eqb (byte_at p r) slash) eqn:Hslash; [apply IH; lia|].
    destruct (Ascii.eqb (byte_at p r) dot
              && ((r + 1 =? len p)%nat || Ascii.eqb (byte_at p (r + 1)) slash));
      [apply IH; lia|].
    destruct (Ascii.eqb (byte_at p r) dot && Ascii.eqb (byte_at p (r + 1)) dot
              && ((r + 2 =? len p)%nat || Ascii.eqb (byte_at p (r + 2)) slash)).
    { destruct (dotdot <? w out)%nat; [apply IH; lia|].
      destruct (negb rooted); apply IH; lia. }
    set (out' := if (rooted && negb (w out =? 1)%nat || negb rooted && negb (w out =? 0)%nat)%bool
                 then append out slash else out).
    destruct (copy_element (len p - r) p r out') as [r' out''] eqn:Hcopy.
    assert (S r <= r')%nat.
    { destruct (len p - r)%nat as [|k] eqn:Hk; [lia|].
      cbn [copy_element] in Hcopy.
      rewrite (proj2 (Nat.ltb_lt r (len p)) Hr), Hslash in Hcopy. cbn in Hcopy.
      pose proof (copy_element_advances k p (S r) (append out' (byte_at p r))) as Hadv.
      rewrite Hcopy in Hadv. exact Hadv. }
    apply IH; lia.
Qed.

(** *** The lazy buffer *)

Lemma index_raw b i : index b i = nth i (raw b) Ascii.zero.
Proof.
  unfold index, raw. destruct (buf b); [done|].
  by rewrite byte_at_chars, nth_lookup.
Qed.

Lemma byte_at_nth p i : byte_at p i = nth i (chars p) Ascii.zero.
Proof. by rewrite byte_at_chars, nth_lookup. Qed.

Lemma byte_at_lookup p i : (i < len p)%nat -> chars p !! i = Some (byte_at p i).
Proof.
  intros Hi. rewrite byte_at_chars.
  destruct (lookup_lt_is_Some_2 (chars p) i) as [c ->]; [by rewrite chars_length|done].
Qed.

Lemma drop_chars p r :
  (r < len p)%nat -> drop r (chars p) = byte_at p r :: drop (S r) (chars p).
Proof. intros Hr. by apply drop_S, byte_at_lookup. Qed.

Lemma drop_chars_end p r : (len p <= r)%nat -> drop r (chars p) = [].
Proof. intros Hr. apply drop_ge. by rewrite chars_length. Qed.

Lemma take_S_insert {A} (l : list A) i x :
  (i < length l)%nat -> take (S i) (<[i := x]> l) = take i l ++ [x].
Proof.
  revert i. induction l as [|y l IH]; intros [|i] Hi; simpl in *; try lia; [done|].
  f_equal. apply IH. lia.
Qed.

Lemma content_length p b : lazybuf_ok p b -> length (content b) = w b.
Proof. intros (_ & Hraw & Hw). unfold content. rewrite length_take. lia. Qed.

Lemma append_Some b bf c :
  buf b = Some bf ->
  append b c = {| s := s b; buf := Some (<[w b := c]> bf); w := S (w b) |}.
Proof. unfold append. by intros ->. Qed.

Lemma append_None_same b c :
  buf b = None -> (w b < len (s b))%nat -> byte_at (s b) (w b) = c ->
  append b c = {| s := s b; buf := None; w := S (w b) |}.
Proof.
  unfold append. intros -> Hlt <-.
  rewrite (proj2 (Nat.ltb_lt _ _) Hlt), Ascii.eqb_refl. done.
Qed.

Lemma append_None_other b c :
  buf b = None -> byte_at (s b) (w b) <> c ->
  append b c =
    {| s := s b;
       buf := Some (<[w b := c]> (take (w b) (chars (s b))
                                   ++ replicate (len (s b) - w b) Ascii.zero));
       w := S (w b) |}.
Proof.
  unfold append. intros -> Hne.
  rewrite (proj2 (Ascii.eqb_neq _ _) Hne), andb_false_r. done.
Qed.

Lemma append_ok p b c :
  lazybuf_ok p b -> (w b < len p)%nat ->
  lazybuf_ok p (append b c) /\ w (append b c) = S (w b) /\
  content (append b c) = content b ++ [c].
Proof.
  intros (Hs & Hraw & Hw) Hlt. subst p.
  unfold lazybuf_ok, content, raw in *.
  destruct (buf b) as [bf|] eqn:Hbuf.
  - rewrite (append_Some b bf c Hbuf). cbn [s buf w].
    rewrite length_insert. split; [split; [done|split; [done|lia]]|].
    split; [done|]. apply take_S_insert. lia.
  - destruct (decide (byte_at (s b) (w b) = c)) as [Hc|Hc].
    + rewrite (append_None_same b c Hbuf Hlt Hc). cbn [s buf w].
      split; [split; [done|split; [done|lia]]|]. split; [done|].
      erewrite take_S_r; [done|]. rewrite <- Hc. by apply byte_at_lookup.
    + rewrite (append_None_other b c Hbuf Hc). cbn [s buf w].
      assert (length (take (w b) (chars (s b)) ++ replicate (len (s b) - w b) Ascii.zero)
              = len (s b)) as Hlen.
      { rewrite length_app, length_take, length_replicate, chars_length. lia. }
      rewrite length_insert. split; [split; [done|split; [done|lia]]|].
      split; [done|]. rewrite take_S_insert by lia. f_equal.
      rewrite take_app_le by (rewrite length_take, chars_length; lia).
      rewrite take_take. f_equal. lia.
Qed.

Lemma lazybuf_string_content p b :
  lazybuf_ok p b -> lazybuf_string b = string_of_list_ascii (content b).
Proof.
  intros (Hs & Hraw & Hw). unfold lazybuf_string, content, raw.
  destruct (buf b); [done|].
  apply chars_inj. rewrite chars_slice, list_ascii_of_string_of_list_ascii.
  by rewrite Nat.sub_0_r, drop_0.
Qed.

Lemma backtrack_chars_le fuel : forall dotdot out k,
  (backtrack_chars fuel dotdot out k <= k)%nat.
Proof.
  induction fuel as [|fuel IH]; intros dotdot out k; simpl; [done|].
  destruct ((dotdot <? k)%nat && negb (is_slash (nth k out Ascii.zero))); [|done].
  specialize (IH dotdot out (k - 1)%nat). lia.
Qed.

Lemma backtrack_chars_take fuel : forall dotdot out k n,
  (k < n)%nat ->
  backtrack_chars fuel dotdot (take n out) k = backtrack_chars fuel dotdot out k.
Proof.
  induction fuel as [|fuel IH]; intros dotdot out k n Hk; simpl; [done|].
  assert (nth k (take n out) Ascii.zero = nth k out Ascii.zero) as ->.
  { rewrite !nth_lookup. by rewrite lookup_take_lt. }
  destruct ((dotdot <? k)%nat && negb (is_slash (nth k out Ascii.zero))); [|done].
  apply IH. lia.
Qed.

Lemma backtrack_raw fuel : forall dotdot b,
  s (backtrack fuel dotdot b) = s b /\
  raw (backtrack fuel dotdot b) = raw b /\
  w (backtrack fuel dotdot b) = backtrack_chars fuel dotdot (raw b) (w b).
Proof.
  induction fuel as [|fuel IH]; intros dotdot b; cbn [backtrack backtrack_chars]; [done|].
  rewrite index_raw. unfold is_slash.
  destruct ((dotdot <? w b)%nat && negb (Ascii.eqb (nth (w b) (raw b) Ascii.zero) slash));
    [|done].
  destruct (IH dotdot (set_w b (w b - 1))) as (-> & -> & ->). done.
Qed.

(** *** [Clean] computes [Clean_chars] *)

Lemma copy_element_chars fuel : forall p r b,
  lazybuf_ok p b -> (w b <= r)%nat -> (len p - r <= fuel)%nat ->
  exists r' b',
    copy_element fuel p r b = (r', b') /\
    lazybuf_ok p b' /\ (w b' <= r')%nat /\ (r <= r')%nat /\
    ((len p <= r')%nat \/ byte_at p r' = slash) /\
    forall rooted dotdot,
      clean_chars rooted true (drop r (chars p)) dotdot (content b)
      = clean_chars rooted false (drop r' (chars p)) dotdot (content b').
Proof.
  induction fuel as [|fuel IH]; intros p r b Hok Hw Hfuel.
  - exists r, b. cbn [copy_element]. split_and!; [done|done|done|lia|left; lia|].
    intros rooted dotdot. by rewrite drop_chars_end by lia.
  - cbn [copy_element].
    destruct (Nat.ltb_spec r (len p)) as [Hr|Hr]; cbn [andb].
    + destruct (Ascii.eqb_spec (byte_at p r) slash) as [Hslash|Hslash]; cbn [negb].
      * exists r, b. split_and!; [done|done|done|lia|by right|].
        intros rooted dotdot. rewrite drop_chars by done. cbn [clean_chars].
        unfold is_slash. by rewrite Hslash, Ascii.eqb_refl.
      * destruct (append_ok p b (byte_at p r) Hok ltac:(lia)) as (Hok1 & Hw1 & Hc1).
        destruct (IH p (S r) (append b (byte_at p r)) Hok1 ltac:(lia) ltac:(lia))
          as (r' & b' & Hcopy & Hok' & Hw' & Hr' & Hend & Hchars).
        exists r', b'. split_and!; [done|done|done|lia|done|].
        intros rooted dotdot. rewrite <- Hchars, Hc1, (drop_chars p r) by done.
        cbn [clean_chars]. unfold is_slash.
        by rewrite (proj2 (Ascii.eqb_neq _ _) Hslash).
    + exists r, b. split_and!; [done|done|done|lia|left; lia|].
      intros rooted dotdot. by rewrite drop_chars_end by lia.
Qed.

Lemma at_boundary_drop p r :
  at_boundary (drop r (chars p))
  = ((r =? len p)%nat || Ascii.eqb (byte_at p r) slash)%bool || (len p <? r)%nat.
Proof.
  destruct (Nat.ltb_spec (len p) r) as [Hgt|Hle].
  - rewrite drop_chars_end by lia. by rewrite orb_true_r.
  - rewrite orb_false_r. destruct (Nat.eqb_spec r (len p)) as [->|Hne].
    + by rewrite drop_chars_end.
    + rewrite drop_chars by lia. done.
Qed.

Lemma clean_loop_chars fuel : forall p rooted r dotdot b,
  lazybuf_ok p b -> behind p rooted r b -> (len p - r <= fuel)%nat ->
  lazybuf_ok p (clean_loop fuel p rooted r dotdot b) /\
  content (clean_loop fuel p rooted r dotdot b)
  = clean_chars rooted false (drop r (chars p)) dotdot (content b).
Proof.
  induction fuel as [|fuel IH]; intros p rooted r dotdot b Hok [Hw Hcatch] Hfuel.
  { cbn [clean_loop]. by rewrite drop_chars_end by lia. }
  cbn [clean_loop].
  destruct (Nat.ltb_spec r (len p)) as [Hr|Hr]; cbn [negb];
    [|by rewrite drop_chars_end by lia].
  pose proof (content_length p b Hok) as Hlen.
  rewrite (drop_chars p r Hr). cbn [clean_chars]. unfold is_slash at 1, is_dot.
  destruct (Ascii.eqb_spec (byte_at p r) slash) as [Hslash|Hslash].
  { (* empty path element *)
    replace (r + 1)%nat with (S r) by lia.
    apply IH; [done| |lia]. split; [lia|intros; lia]. }
  rewrite at_boundary_drop.
  replace (len p <? S r)%nat with false by (symmetry; apply Nat.ltb_ge; lia).
  rewrite orb_false_r. replace (r + 1)%nat with (S r) by lia.
  destruct (Ascii.eqb (byte_at p r) dot
            && ((S r =? len p)%nat || Ascii.eqb (byte_at p (S r)) slash)) eqn:Hdot.
  { (* . element *)
    apply IH; [done| |lia]. split; [lia|intros; lia]. }
  destruct (Ascii.eqb_spec (byte_at p r) dot) as [Hisdot|Hnodot]; cbn [andb] in *.
  - (* the byte is a dot and more follows in the element *)
    apply orb_false_iff in Hdot as [Hnotend Hnoslash].
    apply Nat.eqb_neq in Hnotend. assert (S r < len p)%nat as Hr1 by lia.
    rewrite (drop_chars p (S r) Hr1). cbn [tl].
    rewrite at_boundary_drop.
    replace (len p <? S (S r))%nat with false by (symmetry; apply Nat.ltb_ge; lia).
    rewrite orb_false_r. replace (r + 2)%nat with (S (S r)) by lia.
    destruct (Ascii.eqb (byte_at p (S r)) dot
              && ((S (S r) =? len p)%nat || Ascii.eqb (byte_at p (S (S r))) slash))
      eqn:Hdotdot.
    + (* .. element *)
      apply andb_true_iff in Hdotdot as [_ Hbound].
      rewrite Hlen.
      destruct (Nat.ltb_spec dotdot (w b)) as [Hback|Hnoback].
      * (* can backtrack *)
        destruct (backtrack_raw (w (set_w b (w b - 1))) dotdot (set_w b (w b - 1)))
          as (Hs' & Hraw' & Hw').
        cbn [set_w w] in Hs', Hraw', Hw' |- *.
        change (raw (set_w b (w b - 1))) with (raw b) in Hraw', Hw'.
        pose proof (backtrack_chars_le (w b - 1) dotdot (raw b) (w b - 1)) as Hle.
        destruct Hok as (Hs & Hraw & Hwn).
        set (b' := backtrack (w b - 1) dotdot (set_w b (w b - 1))) in *.
        assert (lazybuf_ok p b') as Hok'.
        { split; [by rewrite Hs'|]. split; [by rewrite Hraw'|]. rewrite Hw'. lia. }
        assert (content b' = take (backtrack_chars (w b - 1) dotdot (content b) (w b - 1))
                               (content b)) as Hc'.
        { unfold content at 1. rewrite Hraw', Hw'.
          unfold content. rewrite backtrack_chars_take by lia.
          rewrite take_take. f_equal. lia. }
        rewrite <- Hc'. apply IH; [done| |lia].
        split; [rewrite Hw'; lia|rewrite Hw'; intros; lia].
      * destruct rooted; cbn [negb].
        -- apply IH; [done| |lia]. split; [lia|intros; lia].
        -- (* cannot backtrack, but not rooted, so append .. element *)
           assert ((w b < r)%nat \/ w b = 0%nat) as Hroom.
           { destruct (decide (w b = r)) as [Heq|]; [|lia].
             destruct (Hcatch Heq) as [Hstart|[?|?]]; [|lia|congruence].
             cbn in Hstart. lia. }
           set (b1 := if (0 <? w b)%nat then append b slash else b).
           assert (lazybuf_ok p b1 /\ (w b1 <= r)%nat /\
                   content b1 = if (0 <? w b)%nat then content b ++ [slash] else content b)
             as (Hok1 & Hw1 & Hc1).
           { unfold b1. destruct (Nat.ltb_spec 0 (w b)); [|done].
             destruct (append_ok p b slash Hok ltac:(lia)) as (? & ? & ?).
             split_and!; [done|lia|done]. }
           destruct (append_ok p b1 dot Hok1 ltac:(lia)) as (Hok2 & Hw2 & Hc2).
           destruct (append_ok p (append b1 dot) dot Hok2 ltac:(lia)) as (Hok3 & Hw3 & Hc3).
           assert (content (append (append b1 dot) dot)
                   = (if (0 <? w b)%nat then content b ++ [slash] else content b)
                       ++ [dot; dot]) as Hc.
           { rewrite Hc3, Hc2, Hc1, <- app_assoc. done. }
           rewrite <- Hc, (content_length p _ Hok3).
           apply IH; [done| |lia]. split; [lia|].
           intros _. right.
           apply orb_true_iff in Hbound as [?%Nat.eqb_eq|?%Ascii.eqb_eq]; [left; lia|by right].
    + (* real path element starting with a dot *)
      rewrite Hlen.
      set (b1 := if (rooted && negb (w b =? 1)%nat || negb rooted && negb (w b =? 0)%nat)%bool
                 then append b slash else b).
      assert (lazybuf_ok p b1 /\ (w b1 <= r)%nat /\
              content b1 =
                if (rooted && negb (w b =? 1)%nat || negb rooted && negb (w b =? 0)%nat)%bool
                then content b ++ [slash] else content b)
        as (Hok1 & Hw1 & Hc1).
      { unfold b1.
        destruct (rooted && negb (w b =? 1)%nat || negb rooted && negb (w b =? 0)%nat)%bool
          eqn:Hadd; [|done].
        assert (w b < r)%nat.
        { destruct (decide (w b = r)) as [Heq|]; [|lia].
          destruct (Hcatch Heq) as [Hstart|[?|?]]; [|lia|congruence].
          rewrite Heq, Hstart in Hadd. destruct rooted; discriminate. }
        destruct (append_ok p b slash Hok ltac:(lia)) as (? & ? & ?).
        split_and!; [done|lia|done]. }
      destruct (copy_element_chars (len p - r) p r b1 Hok1 Hw1 ltac:(lia))
        as (r' & b' & Hcopy & Hok' & Hw' & Hr' & Hend & Hchars).
      rewrite Hcopy.
      assert (S r <= r')%nat.
      { destruct Hend as [?|Hend]; [lia|].
        destruct (decide (r' = r)) as [->|]; [congruence|lia]. }
      specialize (Hchars rooted dotdot).
      rewrite (drop_chars p r Hr) in Hchars. cbn [clean_chars] in Hchars.
      unfold is_slash in Hchars at 1.
      rewrite (proj2 (Ascii.eqb_neq _ _) Hslash), Hc1 in Hchars.
      rewrite (drop_chars p (S r) Hr1) in Hchars.
      rewrite Hchars. apply IH; [done| |lia].
      split; [done|]. intros _. right. destruct Hend; [by left|by right].
  - (* real path element *)
    cbn [andb]. rewrite Hlen.
    set (b1 := if (rooted && negb (w b =? 1)%nat || negb rooted && negb (w b =? 0)%nat)%bool
               then append b slash else b).
    assert (lazybuf_ok p b1 /\ (w b1 <= r)%nat /\
            content b1 =
              if (rooted && negb (w b =? 1)%nat || negb rooted && negb (w b =? 0)%nat)%bool
              then content b ++ [slash] else content b)
      as (Hok1 & Hw1 & Hc1).
    { unfold b1.
      destruct (rooted && negb (w b =? 1)%nat || negb rooted && negb (w b =? 0)%nat)%bool
        eqn:Hadd; [|done].
      assert (w b < r)%nat.
      { destruct (decide (w b = r)) as [Heq|]; [|lia].
        destruct (Hcatch Heq) as [Hstart|[?|?]]; [|lia|congruence].
        rewrite Heq, Hstart in Hadd. destruct rooted; discriminate. }
      destruct (append_ok p b slash Hok ltac:(lia)) as (? & ? & ?).
      split_and!; [done|lia|done]. }
    destruct (copy_element_chars (len p - r) p r b1 Hok1 Hw1 ltac:(lia))
      as (r' & b' & Hcopy & Hok' & Hw' & Hr' & Hend & Hchars).
    rewrite Hcopy.
    assert (S r <= r')%nat.
    { destruct Hend as [?|Hend]; [lia|].
      destruct (decide (r' = r)) as [->|]; [congruence|lia]. }
    specialize (Hchars rooted dotdot).
    rewrite (drop_chars p r Hr) in Hchars. cbn [clean_chars] in Hchars.
    unfold is_slash in Hchars at 1.
    rewrite (proj2 (Ascii.eqb_neq _ _) Hslash), Hc1 in Hchars.
    rewrite Hchars. apply IH; [done| |lia].
    split; [done|]. intros _. right. destruct Hend; [by left|by right].
Qed.

Lemma Clean_refines p : Clean p = string_of_list_ascii (Clean_chars (chars p)).
Proof.
  unfold Clean. destruct p as [|c p']; [done|].
  set (p := String c p'). cbn [String.eqb].
  change (chars p) with (c :: chars p'). cbn [Clean_chars].
  change (byte_at p 0) with c. unfold is_slash.
  set (b0 := {| s := p; buf := None; w := 0 |}).
  assert (lazybuf_ok p b0) as Hok0.
  { split; [done|]. split; [apply chars_length|cbn; lia]. }
  assert (0 < len p)%nat as Hpos by (cbn; lia).
  destruct (Ascii.eqb_spec c slash) as [->|Hc].
  - destruct (append_ok p b0 slash Hok0 Hpos) as (Hok1 & Hw1 & Hc1).
    destruct (clean_loop_chars (len p - 1) p true 1 1 (append b0 slash) Hok1)
      as [Hok Hcontent]; [|lia|].
    { split; [rewrite Hw1; cbn; lia|]. intros _. by left. }
    rewrite Hc1 in Hcontent. change (drop 1 (chars p)) with (chars p') in Hcontent.
    change (content b0 ++ [slash]) with [slash] in Hcontent.
    rewrite <- Hcontent, (content_length p _ Hok).
    destruct (w _ =? 0)%nat; [done|]. by apply lazybuf_string_content with p.
  - destruct (clean_loop_chars (len p - 0) p false 0 0 b0 Hok0)
      as [Hok Hcontent]; [|lia|].
    { split; [cbn; lia|]. intros _. by left. }
    change (drop 0 (chars p)) with (c :: chars p') in Hcontent.
    change (content b0) with (@nil ascii) in Hcontent.
    rewrite <- Hcontent, (content_length p _ Hok).
    destruct (w _ =? 0)%nat; [done|]. by apply lazybuf_string_content with p.
Qed.

(** *** What [Clean] does not see

    The loop looks at most two bytes ahead and never across a slash, so
    what it has done when it reaches a slash does not depend on what
    follows the slash. *)

Lemma at_boundary_app x z :
  at_boundary (x ++ slash :: z) = at_boundary (x ++ [slash]).
Proof. by destruct x. Qed.

Lemma clean_chars_prefix k : forall x, (length x <= k)%nat ->
  forall rooted copying dotdot out,
  exists dotdot' out', forall z,
    clean_chars rooted copying (x ++ slash :: z) dotdot out
    = clean_chars rooted false z dotdot' out'.
Proof.
  induction k as [|k IH]; intros x Hlen rooted copying dotdot out.
  { destruct x; [|cbn in Hlen; lia]. exists dotdot, out. intros z. by destruct copying. }
  destruct x as [|c x']; [exists dotdot, out; intros z; by destruct copying|].
  cbn [length] in Hlen. cbn [app clean_chars].
  destruct copying.
  { destruct (is_slash c); apply IH; lia. }
  destruct (is_slash c); [apply IH; lia|].
  destruct x' as [|c' x'']; cbn [app at_boundary tl].
  - change (is_slash slash) with true. change (is_dot slash) with false.
    rewrite andb_true_r, andb_false_r. cbn [andb].
    destruct (is_dot c); [apply (IH []); cbn; lia|].
    apply (IH []); cbn; lia.
  - cbn [length] in Hlen. setoid_rewrite at_boundary_app.
    destruct (is_dot c && is_slash c'); [apply (IH (c' :: x'')); cbn; lia|].
    destruct (is_dot c && is_dot c' && at_boundary (x'' ++ [slash])).
    + destruct (dotdot <? length out)%nat; [apply IH; lia|].
      destruct (negb rooted); apply IH; lia.
    + apply (IH (c' :: x'')). cbn. lia.
Qed.

(** A slash at the very end changes nothing. *)
Lemma clean_chars_trailing_slash k : forall x, (length x <= k)%nat ->
  forall rooted copying dotdot out,
    clean_chars rooted copying (x ++ [slash]) dotdot out
    = clean_chars rooted copying x dotdot out.
Proof.
  induction k as [|k IH]; intros x Hlen rooted copying dotdot out.
  { destruct x; [|cbn in Hlen; lia]. by destruct copying. }
  destruct x as [|c x']; [by destruct copying|].
  cbn [length] in Hlen. cbn [app clean_chars].
  destruct copying.
  { destruct (is_slash c); apply IH; lia. }
  destruct (is_slash c); [apply IH; lia|].
  destruct x' as [|c' x'']; cbn [app at_boundary tl].
  - change (is_slash slash) with true. change (is_dot slash) with false.
    rewrite andb_true_r, andb_false_r. cbn [andb].
    destruct (is_dot c); [done|].
    cbn [clean_chars]. change (is_slash slash) with true. done.
  - cbn [length] in Hlen.
    assert (at_boundary (x'' ++ [slash]) = at_boundary x'') as -> by (by destruct x'').
    destruct (is_dot c && is_slash c'); [apply (IH (c' :: x'')); cbn; lia|].
    destruct (is_dot c && is_dot c' && at_boundary x'').
    + destruct (dotdot <? length out)%nat; [apply IH; lia|].
      destruct (negb rooted); apply IH; lia.
    + apply (IH (c' :: x'')). cbn. lia.
Qed.

Lemma Clean_chars_dot_segment x y :
  Clean_chars (x ++ slash :: dot :: slash :: y) = Clean_chars (x ++ slash :: y).
Proof.
  destruct x as [|c x']; cbn [app Clean_chars].
  - change (is_slash slash) with true. cbn iota. cbn [clean_chars at_boundary].
    change (is_slash dot) with false. change (is_dot dot) with true.
    change (is_slash slash) with true. cbn [andb]. done.
  - destruct (is_slash c).
    + destruct (clean_chars_prefix (length x') x' (le_n _) true false 1 [slash])
        as (dotdot' & out' & Hprefix).
      rewrite !Hprefix. cbn [clean_chars at_boundary].
      change (is_slash dot) with false. change (is_dot dot) with true.
      change (is_slash slash) with true. cbn [andb]. done.
    + destruct (clean_chars_prefix (length (c :: x')) (c :: x') (le_n _) false false 0 [])
        as (dotdot' & out' & Hprefix).
      cbn [app] in Hprefix. rewrite !Hprefix. cbn [clean_chars at_boundary].
      change (is_slash dot) with false. change (is_dot dot) with true.
      change (is_slash slash) with true. cbn [andb]. done.
Qed.

Lemma Clean_chars_double_slash x y :
  Clean_chars (x ++ slash :: slash :: y) = Clean_chars (x ++ slash :: y).
Proof.
  destruct x as [|c x']; cbn [app Clean_chars].
  - change (is_slash slash) with true. cbn iota. cbn [clean_chars].
    change (is_slash slash) with true. done.
  - destruct (is_slash c).
    + destruct (clean_chars_prefix (length x') x' (le_n _) true false 1 [slash])
        as (dotdot' & out' & Hprefix).
      rewrite !Hprefix. cbn [clean_chars]. change (is_slash slash) with true. done.
    + destruct (clean_chars_prefix (length (c :: x')) (c :: x') (le_n _) false false 0 [])
        as (dotdot' & out' & Hprefix).
      cbn [app] in Hprefix. rewrite !Hprefix. cbn [clean_chars].
      change (is_slash slash) with true. done.
Qed.

Lemma Clean_chars_trailing_slash x :
  x <> [] -> Clean_chars (x ++ [slash]) = Clean_chars x.
Proof.
  destruct x as [|c x']; [done|]. intros _. cbn [app Clean_chars].
  destruct (is_slash c).
  - by rewrite (clean_chars_trailing_slash (length x')).
  - by rewrite (clean_chars_trailing_slash (length (c :: x')) (c :: x')).
Qed.

Lemma Clean_chars_leading_dot y :
  match y with c :: _ => is_slash c = false | [] => True end ->
  Clean_chars (dot :: slash :: y) = Clean_chars y.
Proof.
  destruct y as [|c y']; [done|]. intros Hc. cbn [Clean_chars].
  change (is_slash dot) with false. rewrite Hc. cbn iota.
  change (clean_chars false false (dot :: slash :: c :: y') 0 [])
    with (clean_chars false false (c :: y') 0 []). done.
Qed.

(** [Clean] drops a [.] element, a doubled slash and a trailing slash. *)
Lemma Clean_leading_dot q :
  byte_at q 0 <> slash -> Clean ("./" +:+ q) = Clean q.
Proof.
  intros Hq. rewrite !Clean_refines, chars_append. f_equal.
  apply (Clean_chars_leading_dot (chars q)).
  destruct q as [|c q']; [done|]. cbn. by apply Ascii.eqb_neq.
Qed.

Lemma Clean_dot_segment p q : Clean (p +:+ "/./" +:+ q) = Clean (p +:+ "/" +:+ q).
Proof.
  rewrite !Clean_refines, !chars_append. f_equal.
  apply (Clean_chars_dot_segment (chars p) (chars q)).
Qed.

Lemma Clean_double_slash p q : Clean (p +:+ "//" +:+ q) = Clean (p +:+ "/" +:+ q).
Proof.
  rewrite !Clean_refines, !chars_append. f_equal.
  apply (Clean_chars_double_slash (chars p) (chars q)).
Qed.

Lemma Clean_trailing_slash p : p <> "" -> Clean (p +:+ "/") = Clean p.
Proof.
  intros Hp. rewrite !Clean_refines, !chars_append. f_equal.
  apply (Clean_chars_trailing_slash (chars p)).
  intros Hnil. apply Hp, chars_inj. by rewrite Hnil.
Qed.

(** *** [Split] and [Base] by the shape of the path *)

Local Abbreviation str := string_of_list_ascii.

Lemma chars_str l : chars (str l) = l.
Proof. apply list_ascii_of_string_of_list_ascii. Qed.

Lemma str_chars p : str (chars p) = p.
Proof. apply string_of_list_ascii_of_string. Qed.

Lemma str_app l1 l2 : str (l1 ++ l2) = str l1 +:+ str l2.
Proof. apply chars_inj. by rewrite chars_append, !chars_str. Qed.

Lemma len_str l : len (str l) = length l.
Proof. by rewrite <- chars_length, chars_str. Qed.

Lemma append_assoc p q t : (p +:+ q) +:+ t = p +:+ (q +:+ t).
Proof. apply chars_inj. by rewrite !chars_append, app_assoc. Qed.

Lemma lastSlash_from_ge p i : -1 <= lastSlash_from p i.
Proof.
  induction i as [|i IH]; cbn [lastSlash_from]; [lia|].
  destruct (Ascii.eqb (byte_at p i) slash); lia.
Qed.

Lemma lastSlash_from_skip p j i :
  (j <= i)%nat ->
  (forall k, (j <= k < i)%nat -> byte_at p k <> slash) ->
  lastSlash_from p i = lastSlash_from p j.
Proof.
  induction i as [|i IH]; intros Hji Hno.
  - by replace j with 0%nat by lia.
  - destruct (decide (j = S i)) as [->|]; [done|].
    cbn [lastSlash_from].
    rewrite (proj2 (Ascii.eqb_neq _ _) (Hno i ltac:(lia))).
    apply IH; [lia|]. intros k Hk. apply Hno. lia.
Qed.

Lemma lastSlash_app d f :
  no_slash f -> slash_ended d ->
  lastSlash (str (d ++ f)) = Z.of_nat (length d) - 1.
Proof.
  intros Hf Hd. unfold lastSlash. rewrite len_str, length_app.
  rewrite (lastSlash_from_skip _ (length d)); [|lia|].
  - destruct Hd as [->|Hlast]; [done|].
    destruct d as [|c d] using rev_ind; [done|]. clear IHd.
    rewrite last_snoc in Hlast. injection Hlast as ->.
    rewrite length_app. cbn [length]. rewrite Nat.add_1_r. cbn [lastSlash_from].
    rewrite byte_at_chars, chars_str, <- app_assoc. cbn [app].
    rewrite list_lookup_middle by done.
    change (default Ascii.zero (Some slash)) with slash.
    change (Ascii.eqb slash slash) with true. cbn iota. lia.
  - intros k Hk. rewrite byte_at_chars, chars_str.
    rewrite lookup_app_r by lia.
    destruct (lookup_lt_is_Some_2 f (k - length d)) as [c Hc]; [lia|].
    rewrite Hc. cbn. unfold no_slash in Hf. rewrite Forall_forall in Hf.
    apply Hf. by eapply list_elem_of_lookup_2.
Qed.

(** [Split] cuts after the last slash. *)
Lemma Split_app d f :
  no_slash f -> slash_ended d -> Split (str (d ++ f)) = (str d, str f).
Proof.
  intros Hf Hd. unfold Split. rewrite (lastSlash_app d f Hf Hd).
  replace (Z.to_nat (Z.of_nat (length d) - 1 + 1)) with (length d) by lia.
  f_equal; apply chars_inj; rewrite chars_slice, !chars_str.
  - by rewrite Nat.sub_0_r, drop_0, take_app_length.
  - rewrite drop_app_length, len_str. apply take_ge. rewrite length_app. lia.
Qed.

Lemma split_exists l :
  exists d f, l = d ++ f /\ no_slash f /\ slash_ended d.
Proof.
  induction l as [|c l IH] using rev_ind.
  - exists [], []. split; [done|]. split; [constructor|by left].
  - destruct (decide (c = slash)) as [->|Hc].
    + exists (l ++ [slash]), []. split; [by rewrite app_nil_r|].
      split; [constructor|]. right. apply last_snoc.
    + destruct IH as (d & f & -> & Hf & Hd).
      exists d, (f ++ [c]). split; [by rewrite app_assoc|]. split; [|done].
      apply Forall_app. split; [done|]. by constructor.
Qed.

(** In front of a path, a prefix that ends with a slash stays in the
    directory part. *)
Lemma Split_append u q :
  last (chars u) = Some slash ->
  Split (u +:+ q) = (u +:+ fst (Split q), snd (Split q)).
Proof.
  intros Hu. destruct (split_exists (chars q)) as (d & f & Hq & Hf & Hd).
  assert (q = str (d ++ f)) as -> by (by rewrite <- Hq, str_chars).
  rewrite (Split_app d f Hf Hd). cbn [fst snd].
  rewrite <- (str_chars u), <- str_app, app_assoc.
  rewrite Split_app; [by rewrite str_app| done |].
  right. destruct Hd as [->|Hd]; [by rewrite app_nil_r|].
  rewrite last_app, Hd. done.
Qed.

(** [strip_slashes] removes the slashes at the end, all of them. *)
Lemma strip_slashes_app a k : forall fuel,
  byte_ended a -> (k <= fuel)%nat ->
  strip_slashes fuel (str (a ++ replicate k slash)) = str a.
Proof.
  induction k as [|k IH]; intros fuel Ha Hk.
  - cbn [replicate]. rewrite app_nil_r. destruct fuel as [|fuel]; [done|].
    cbn [strip_slashes]. rewrite len_str.
    destruct Ha as [->|(c & Hlast & Hc)]; [done|].
    destruct a as [|c' a] using rev_ind; [done|]. clear IHa.
    rewrite last_snoc in Hlast. injection Hlast as ->.
    rewrite length_app. cbn [length]. rewrite Nat.add_1_r.
    replace (S (length a) - 1)%nat with (length a) by lia.
    rewrite byte_at_chars, chars_str, list_lookup_middle by done.
    change (default Ascii.zero (Some c)) with c.
    rewrite (proj2 (Ascii.eqb_neq _ _) Hc). by rewrite andb_false_r.
  - destruct fuel as [|fuel]; [lia|]. cbn [strip_slashes].
    rewrite replicate_S_end, app_assoc, len_str, length_app. cbn [length].
    rewrite Nat.add_1_r.
    replace (S (length (a ++ replicate k slash)) - 1)%nat
      with (length (a ++ replicate k slash)) by lia.
    rewrite byte_at_chars, chars_str, list_lookup_middle by done.
    change (default Ascii.zero (Some slash)) with slash.
    change (Ascii.eqb slash slash) with true. cbn [andb Nat.ltb Nat.leb].
    replace (slice (str ((a ++ replicate k slash) ++ [slash])) 0
               (length (a ++ replicate k slash)))
      with (str (a ++ replicate k slash)).
    { apply IH; [done|lia]. }
    apply chars_inj. rewrite chars_slice, !chars_str.
    by rewrite Nat.sub_0_r, drop_0, take_app_length.
Qed.

Lemma strip_exists l :
  exists a k, l = a ++ replicate k slash /\ byte_ended a.
Proof.
  induction l as [|c l IH] using rev_ind.
  - exists [], 0%nat. split; [done|by left].
  - destruct (decide (c = slash)) as [->|Hc].
    + destruct IH as (a & k & -> & Ha). exists a, (S k).
      split; [|done]. by rewrite replicate_S_end, app_assoc.
    + exists (l ++ [c]), 0%nat. split; [by rewrite app_nil_r|].
      right. exists c. split; [apply last_snoc|done].
Qed.

Lemma Base_Split p :
  p <> "" ->
  Base p =
    let f := snd (Split (strip_slashes (len p) p)) in
    if String.eqb f "" then "/" else f.
Proof.
  intros Hp. unfold Base, Split.
  destruct (String.eqb_spec p "") as [|_]; [done|]. cbn [snd].
  set (p1 := strip_slashes (len p) p).
  pose proof (lastSlash_from_ge p1 (len p1)) as Hge. fold (lastSlash p1) in Hge.
  destruct (Z.leb_spec 0 (lastSlash p1)) as [Hi|Hi]; [done|].
  replace (lastSlash p1) with (-1) by lia. cbn [Z.add Z.to_nat].
  change (Z.to_nat (-1 + 1)) with 0%nat. by rewrite slice_all.
Qed.

(** A path with a last element keeps its base name behind a prefix that
    ends with a slash. *)
Lemma Base_append u q :
  last (chars u) = Some slash -> has_element q -> Base (u +:+ q) = Base q.
Proof.
  intros Hu (c & Hin & Hc).
  destruct (strip_exists (chars q)) as (a & k & Hq & Ha).
  assert (a <> []) as Hne.
  { intros ->. cbn [app] in Hq. rewrite Hq in Hin.
    apply elem_of_replicate in Hin as [-> _]. done. }
  destruct Ha as [->|Ha]; [done|].
  assert (q = str (a ++ replicate k slash)) as -> by (by rewrite <- Hq, str_chars).
  assert (str (a ++ replicate k slash) <> "") as Hq_ne.
  { intros Heq. apply (f_equal chars) in Heq. rewrite chars_str in Heq.
    by destruct a. }
  assert (u +:+ str (a ++ replicate k slash) <> "") as Huq_ne.
  { intros Heq. apply (f_equal len) in Heq. rewrite len_append in Heq.
    cbn in Heq. apply Hq_ne, chars_inj. cbn.
    apply nil_length_inv. rewrite chars_length. lia. }
  rewrite (Base_Split _ Hq_ne), (Base_Split _ Huq_ne). cbn zeta.
  rewrite (strip_slashes_app a k) by (by right || (rewrite len_str, length_app, length_replicate; lia)).
  rewrite <- (str_chars u), <- str_app, app_assoc.
  rewrite (strip_slashes_app (chars u ++ a) k).
  - by rewrite str_app, str_chars, Split_append.
  - right. destruct Ha as (c' & Hlast & Hc'). exists c'. split; [|done].
    rewrite last_app, Hlast. done.
  - rewrite len_str, !length_app, length_replicate. lia.
Qed.

(** *** Redundant elements and trailing slashes *)

Lemma lastSlash_append_slash p : lastSlash (p +:+ "/") = Z.of_nat (len p).
Proof.
  unfold lastSlash. rewrite len_append. change (len "/") with 1%nat.
  rewrite Nat.add_1_r. cbn [lastSlash_from].
  rewrite byte_at_append_r by lia. by rewrite Nat.sub_diag.
Qed.

(** [Base] drops a trailing slash. *)
Lemma Base_trailing_slash p : p <> "" -> Base (p +:+ "/") = Base p.
Proof.
  intros Hp. unfold Base.
  destruct (String.eqb_spec (p +:+ "/") "") as [Heq|_].
  { apply (f_equal len) in Heq. rewrite len_append in Heq. cbn in Heq. lia. }
  destruct (String.eqb_spec p "") as [|_]; [done|].
  rewrite len_append. change (len "/") with 1%nat. rewrite Nat.add_1_r.
  cbn [strip_slashes]. rewrite len_append. change (len "/") with 1%nat.
  replace (len p + 1 - 1)%nat with (len p) by lia.
  rewrite byte_at_append_r by lia. rewrite Nat.sub_diag.
  replace (0 <? len p + 1)%nat with true by (symmetry; apply Nat.ltb_lt; lia).
  cbn [andb byte_at]. change (Ascii.eqb (byte_at "/" 0) slash) with true. cbn iota.
  by rewrite slice_append_l.
Qed.

(** With a trailing slash the directory part is the whole path. *)
Lemma Dir_trailing_slash p : p <> "" -> Dir (p +:+ "/") = Clean p.
Proof.
  intros Hp. unfold Dir, Split. rewrite lastSlash_append_slash.
  replace (Z.to_nat (Z.of_nat (len p) + 1)) with (len (p +:+ "/"))
    by (rewrite len_append; cbn; lia).
  rewrite slice_all. by apply Clean_trailing_slash.
Qed.

Lemma Dir_append u q :
  last (chars u) = Some slash -> Dir (u +:+ q) = Clean (u +:+ fst (Split q)).
Proof. intros Hu. unfold Dir. by rewrite (Split_append u q Hu). Qed.

Lemma last_chars_append_slash p t :
  last (chars (p +:+ (t +:+ "/"))) = Some slash.
Proof. rewrite !chars_append, !app_assoc. apply last_snoc. Qed.

(** A [.] element and a doubled slash before the last element change
    neither the directory listed nor the name looked for. *)
Lemma Dir_dot_segment p q : Dir (p +:+ "/./" +:+ q) = Dir (p +:+ "/" +:+ q).
Proof.
  rewrite <- !append_assoc.
  rewrite (Dir_append (p +:+ "/./")) by apply (last_chars_append_slash p "/.").
  rewrite (Dir_append (p +:+ "/")) by apply (last_chars_append_slash p "").
  rewrite !append_assoc. apply Clean_dot_segment.
Qed.

Lemma Dir_double_slash p q : Dir (p +:+ "//" +:+ q) = Dir (p +:+ "/" +:+ q).
Proof.
  rewrite <- !append_assoc.
  rewrite (Dir_append (p +:+ "//")) by apply (last_chars_append_slash p "/").
  rewrite (Dir_append (p +:+ "/")) by apply (last_chars_append_slash p "").
  rewrite !append_assoc. apply Clean_double_slash.
Qed.

Lemma Base_dot_segment p q :
  has_element q -> Base (p +:+ "/./" +:+ q) = Base (p +:+ "/" +:+ q).
Proof.
  intros Hq. rewrite <- !append_assoc.
  rewrite (Base_append (p +:+ "/./")) by (done || apply (last_chars_append_slash p "/.")).
  by rewrite (Base_append (p +:+ "/")) by (done || apply (last_chars_append_slash p "")).
Qed.

Lemma Split_fst_first q :
  byte_at q 0 <> slash -> byte_at (fst (Split q)) 0 <> slash.
Proof.
  intros Hq. destruct (split_exists (chars q)) as (d & f & Hchars & Hf & Hd).
  assert (q = str (d ++ f)) as -> by (by rewrite <- Hchars, str_chars).
  rewrite (Split_app d f Hf Hd). cbn [fst].
  rewrite byte_at_chars, chars_str in *.
  destruct d as [|c d]; [done|]. exact Hq.
Qed.

(** A leading [.] element changes neither of them either. *)
Lemma Dir_leading_dot q :
  byte_at q 0 <> slash -> Dir ("./" +:+ q) = Dir q.
Proof.
  intros Hq. rewrite (Dir_append "./") by done.
  rewrite Clean_leading_dot by (by apply Split_fst_first).
  unfold Dir. by destruct (Split q).
Qed.

Lemma Base_leading_dot q : has_element q -> Base ("./" +:+ q) = Base q.
Proof. intros Hq. by apply Base_append. Qed.

Lemma Base_double_slash p q :
  has_element q -> Base (p +:+ "//" +:+ q) = Base (p +:+ "/" +:+ q).
Proof.
  intros Hq. rewrite <- !append_assoc.
  rewrite (Base_append (p +:+ "//")) by (done || apply (last_chars_append_slash p "/")).
  by rewrite (Base_append (p +:+ "/")) by (done || apply (last_chars_append_slash p "")).
Qed.

End PathFacts.

(** ** Resolution and the shape of the path *)

Section PathResolution.

Context {S R : Type} {conn : ServerConn S R}.

Implicit Types (st : S) (tr : list event) (name : string).

(** C9 (amended). Resolution lists [path.Dir(name)] and scans for
    [path.Base(name)], so two names with the same [Dir] and the same [Base]
    resolve alike.  A [.] element, in the middle or in front, or a doubled
    slash before the last element of the path changes neither, hence not
    the resolution.  A
    trailing slash keeps the base name but makes the directory part the
    whole path: the listing issued is that of the cleaned path itself, not
    of its parent.  For [/] both the directory listed and the name looked
    for are [/]. *)
Theorem resolution_by_Dir_and_Base :
  (forall name1 name2 st tr,
     path.Dir name1 = path.Dir name2 -> path.Base name1 = path.Base name2 ->
     FS.getEntry name1 (st, tr) = FS.getEntry name2 (st, tr) /\
     FS.Stat name1 (st, tr) = FS.Stat name2 (st, tr)) /\
  (forall p q st tr,
     path.has_element q ->
     FS.getEntry (p +:+ "/./" +:+ q) (st, tr) = FS.getEntry (p +:+ "/" +:+ q) (st, tr) /\
     FS.Stat (p +:+ "/./" +:+ q) (st, tr) = FS.Stat (p +:+ "/" +:+ q) (st, tr) /\
     FS.getEntry (p +:+ "//" +:+ q) (st, tr) = FS.getEntry (p +:+ "/" +:+ q) (st, tr) /\
     FS.Stat (p +:+ "//" +:+ q) (st, tr) = FS.Stat (p +:+ "/" +:+ q) (st, tr) /\
     (path.byte_at q 0 <> path.slash ->
        FS.getEntry ("./" +:+ q) (st, tr) = FS.getEntry q (st, tr) /\
        FS.Stat ("./" +:+ q) (st, tr) = FS.Stat q (st, tr))) /\
  (forall name st tr,
     name <> "" ->
     path.Base (name +:+ "/") = path.Base name /\
     path.Dir (name +:+ "/") = path.Clean name /\
     snd (snd (FS.Stat (name +:+ "/") (st, tr))) = tr ++ [EvList (path.Clean name)]) /\
  (path.Dir "/" = "/" /\ path.Base "/" = "/" /\
   forall st tr,
     (exists info w, FS.Stat "/" (st, tr) = (Ok info, w)) <->
     (exists es st', conn_List st "/" = (Ok es, st') /\
        exists ent, ent ∈ es /\ Name ent = "/")).
Proof.
  assert (forall name1 name2 st tr,
     path.Dir name1 = path.Dir name2 -> path.Base name1 = path.Base name2 ->
     FS.getEntry name1 (st, tr) = FS.getEntry name2 (st, tr) /\
     FS.Stat name1 (st, tr) = FS.Stat name2 (st, tr)) as Hsame.
  { intros name1 name2 st tr Hdir Hbase.
    by rewrite !Stat_run, !getEntry_run, Hdir, Hbase. }
  split; [exact Hsame|]. split; [|split].
  - intros p q st tr Hq.
    destruct (Hsame (p +:+ "/./" +:+ q) (p +:+ "/" +:+ q) st tr) as [Hg1 Hs1];
      [apply Dir_dot_segment|by apply Base_dot_segment|].
    destruct (Hsame (p +:+ "//" +:+ q) (p +:+ "/" +:+ q) st tr) as [Hg2 Hs2];
      [apply Dir_double_slash|by apply Base_double_slash|].
    split_and!; [done..|]. intros Hrel.
    apply Hsame; [by apply Dir_leading_dot|by apply Base_leading_dot].
  - intros name st tr Hname. split; [by apply Base_trailing_slash|].
    split; [by apply Dir_trailing_slash|].
    by rewrite Stat_run, Dir_trailing_slash.
  - split; [reflexivity|]. split; [reflexivity|].
    intros st tr. apply (Stat_succeeds_iff "/").
Qed.

End PathResolution.

Lemma resolution_by_Dir_and_Base_witness :
  path.Dir "a/./b" = path.Dir "a/b" /\ path.Base "a/./b" = path.Base "a/b" /\
  FS.Stat "a/./b" (demo_server, []) = FS.Stat "a/b" (demo_server, []) /\
  FS.Stat ("a" +:+ "//" +:+ "b") (demo_server, []) = FS.Stat "a/b" (demo_server, []) /\
  path.Base ("a/b" +:+ "/") = "b" /\ path.Dir ("a/b" +:+ "/") = "a/b".
Proof.
  destruct (resolution_by_Dir_and_Base (conn := tableServer_ServerConn))
    as (Hsame & Hredundant & Hslash & _).
  split; [reflexivity|]. split; [reflexivity|]. split; [|split; [|split]].
  - apply (Hsame "a/./b" "a/b" demo_server []); reflexivity.
  - apply (Hredundant "a" "b" demo_server []).
    exists "b"%char. split; [by left|discriminate].
  - destruct (Hslash "a/b" demo_server []) as (-> & _ & _); [discriminate|reflexivity].
  - destruct (Hslash "a/b" demo_server []) as (_ & -> & _); [discriminate|reflexivity].
Defined.

(** C9, as stated, fails on a trailing slash: [a/b] is resolved in the
    listing of [a], [a/b/] in the listing of [a/b]. *)
Lemma Stat_trailing_slash_counterexample :
  path.Dir "a/b" = "a" /\ path.Base "a/b" = "b" /\
  path.Dir "a/b/" = "a/b" /\ path.Base "a/b/" = "b" /\
  conn_List demo_server "a" = (Ok [dir_entry "b"], demo_server) /\
  conn_List demo_server "a/b" = (Ok [file_entry "c" 5], demo_server) /\
  fst (FS.Stat "a/b" (demo_server, [])) = Ok {| e := dir_entry "b" |} /\
  fst (FS.Stat "a/b/" (demo_server, []))
    = Err (Wrap (Errorf "%s %+v" [FmtString "b"; FmtEntries [file_entry "c" 5]]) "") /\
  fst (FS.Stat "a/b/" (demo_server, [])) <> fst (FS.Stat "a/b" (demo_server, [])).
Proof. repeat split; try reflexivity. vm_compute. discriminate. Qed.

(** The name is compared byte for byte: another case does not match, and
    [*] is a name like any other. *)
Example Stat_exact_name :
  (exists err, fst (FS.Stat "/x/Z" (demo_server, [])) = Err err) /\
  (exists err, fst (FS.Stat "/x/*" (demo_server, [])) = Err err) /\
  fst (FS.Stat "/x/z" (demo_server, [])) = Ok {| e := file_entry "z" 1 |}.
Proof. split; [|split]; [by eexists..|reflexivity]. Qed.

Example fileinfo_of_file :
  let info := {| e := file_entry "data.txt" 42 |} in
  FileInfo.Name info = "data.txt" /\ FileInfo.Size info = 42 /\
  FileInfo.IsDir info = false /\ FileInfo.Mode info = Returns 0.
Proof. repeat split. Qed.

(** * Further properties *)

(** ** [Open] *)

Section OpenProps.

Context {S R : Type} {conn : ServerConn S R}.

Implicit Types (st : S) (tr : list event) (name : string) (es : list Entry).

Lemma Open_run name st tr :
  FS.Open name (st, tr) =
    match FS.getEntry name (st, tr) with
    | (Err err, w) => (Err (Wrap err ""), w)
    | (Ok ent, (st1, tr1)) =>
        (match fst (conn_Retr st1 name) with
         | Err err => Err (Wrap err "")
         | Ok resp => Ok {| info := {| e := ent |}; resp := resp |}
         end,
         (snd (conn_Retr st1 name), tr1 ++ [EvRetr name]))
    end.
Proof.
  unfold FS.Open, bind. destruct (FS.getEntry name (st, tr)) as [[ent|err] [st1 tr1]]; [|done].
  run. by destruct (conn_Retr st1 name) as [[resp|err] st2].
Qed.

(** X1.  [Open] succeeds exactly when the scan finds an entry and the retrieve,
    issued on the session as the listing left it and with the name as
    given, succeeds.  The file then holds the first entry of that name and
    the stream of the retrieve. *)
Theorem Open_binds_entry_and_stream name st tr f w :
  FS.Open name (st, tr) = (Ok f, w) <->
  exists es st1 before after resp st2,
    conn_List st (path.Dir name) = (Ok es, st1) /\
    es = before ++ e (info f) :: after /\
    Name (e (info f)) = path.Base name /\
    Forall (fun x => Name x <> path.Base name) before /\
    conn_Retr st1 name = (Ok resp, st2) /\
    f = {| info := info f; resp := resp |} /\
    w = (st2, tr ++ [EvList (path.Dir name); EvRetr name]).
Proof.
  rewrite Open_run, getEntry_run.
  destruct (conn_List st (path.Dir name)) as [[es|err] st1] eqn:Hlist; cbn [fst snd].
  - destruct (FS.scan (path.Base name) es) as [ent|] eqn:Hscan.
    + destruct (conn_Retr st1 name) as [[resp|err] st2] eqn:Hretr; cbn [fst snd].
      * split.
        -- intros [= <- <-]. cbn [info].
           apply scan_Some in Hscan as (before & after & Hes & Hname & Hbefore).
           exists es, st1, before, after, resp, st2.
           split_and!; try done. by rewrite <- app_assoc.
        -- intros (es' & st1' & before & after & resp' & st2' & [= <- <-] & Hes & Hname
                   & Hbefore & Hretr' & Hf & ->).
           rewrite Hretr in Hretr'. injection Hretr' as <- <-.
           assert (FS.scan (path.Base name) es = Some (e (info f))) as Hscan'.
           { apply scan_Some. by exists before, after. }
           rewrite Hscan in Hscan'. injection Hscan' as ->.
           rewrite <- app_assoc. f_equal. rewrite Hf. by destruct (info f).
      * split; [discriminate|].
        intros (es' & st1' & before & after & resp' & st2' & [= <- <-] & _ & _ & _ & Hretr' & _).
        congruence.
    + split; [discriminate|].
      intros (es' & st1' & before & after & resp' & st2' & [= <- <-] & Hes & Hname
              & Hbefore & _).
      assert (FS.scan (path.Base name) es = Some (e (info f))) as Hscan'.
      { apply scan_Some. by exists before, after. }
      congruence.
  - split; [discriminate|]. by intros (? & ? & ? & ? & ? & ? & [=] & _).
Qed.

(** X2.  When the entry is found and the retrieve fails, [Open] returns the
    error of the retrieve wrapped once with the empty message, after both
    calls. *)
Theorem Open_retrieve_failure name st st1 st2 tr es ent err :
  conn_List st (path.Dir name) = (Ok es, st1) ->
  ent ∈ es -> Name ent = path.Base name ->
  conn_Retr st1 name = (Err err, st2) ->
  FS.Open name (st, tr) =
    (Err (Wrap err ""), (st2, tr ++ [EvList (path.Dir name); EvRetr name])).
Proof.
  intros Hlist Hin Hname Hretr. rewrite Open_run, getEntry_run, Hlist. cbn [fst snd].
  destruct (scan_is_Some (path.Base name) es) as [_ [found Hscan]]; [by exists ent|].
  rewrite Hscan, Hretr. cbn [fst snd]. by rewrite <- app_assoc.
Qed.

(** X3.  [Open] and [Stat] resolve alike: the metadata of an opened file, which
    [File.Stat] returns without a call and never fails to return, is what
    [Stat] returns for the name on the same session; and when [Stat] fails,
    [Open] fails with the same error, leaves the session as [Stat] does and
    issues no retrieve. *)
Theorem Open_agrees_with_Stat name st tr :
  (forall f w, FS.Open name (st, tr) = (Ok f, w) ->
     File.Stat f = Ok (info f) /\
     exists w', FS.Stat name (st, tr) = (Ok (info f), w')) /\
  (forall err w, FS.Stat name (st, tr) = (Err err, w) ->
     FS.Open name (st, tr) = (Err err, w)) /\
  (forall info0 w, FS.Stat name (st, tr) = (Ok info0, w) ->
     forall r w', FS.Open name (st, tr) = (r, w') ->
       match r with Ok f => info f = info0 | Err _ => True end).
Proof.
  rewrite Open_run. unfold FS.Stat, bind, ret.
  destruct (FS.getEntry name (st, tr)) as [[ent|err] [st1 tr1]].
  - split; [|split].
    + intros f w. destruct (conn_Retr st1 name) as [[resp|err] st2]; cbn [fst snd];
        [|discriminate].
      intros [= <- <-]. split; [done|]. by eexists.
    + discriminate.
    + intros info0 w [= <- <-] r w'.
      destruct (conn_Retr st1 name) as [[resp|err] st2]; cbn [fst snd]; by intros [= <- <-].
  - split; [|split]; [discriminate| |discriminate].
    by intros err' w [= <- <-].
Qed.

End OpenProps.

Lemma Open_binds_entry_and_stream_witness :
  exists f,
    FS.Open "/x/z" (demo_server, []) = (Ok f, (demo_server, [EvList "/x"; EvRetr "/x/z"])) /\
    info f = {| e := file_entry "z" 1 |} /\
    resp f = {| unread := ["z"%char]; broken := None; closed := false |}.
Proof.
  set (f := {| info := {| e := file_entry "z" 1 |};
               resp := {| unread := ["z"%char]; broken := None; closed := false |} |}).
  exists f. split; [|done].
  apply (Open_binds_entry_and_stream "/x/z" demo_server [] f).
  exists [file_entry "z" 1], demo_server, [], [],
    {| unread := ["z"%char]; broken := None; closed := false |}, demo_server.
  split_and!; try reflexivity. constructor.
Defined.

Lemma Open_retrieve_failure_witness :
  FS.Open "a/b" (demo_server, [])
  = (Err (Wrap (Foreign "550 Failed to open file.") ""),
     (demo_server, [EvList "a"; EvRetr "a/b"])).
Proof.
  apply (Open_retrieve_failure "a/b" demo_server demo_server demo_server []
           [dir_entry "b"] (dir_entry "b")); try reflexivity. by left.
Defined.

Lemma Open_agrees_with_Stat_witness :
  (exists f w w',
     FS.Open "/x/z" (demo_server, []) = (Ok f, w) /\
     FS.Stat "/x/z" (demo_server, []) = (Ok (info f), w')) /\
  (exists err w,
     FS.Stat "/x/y" (demo_server, []) = (Err err, w) /\
     FS.Open "/x/y" (demo_server, []) = (Err err, w)).
Proof.
  split.
  - destruct (FS.Open "/x/z" (demo_server, [])) as [[f|err] w] eqn:Hopen;
      [|vm_compute in Hopen; discriminate].
    destruct (Open_agrees_with_Stat "/x/z" demo_server []) as (Hok & _ & _).
    destruct (Hok f w Hopen) as [_ [w' Hstat]].
    by exists f, w, w'.
  - destruct (FS.Stat "/x/y" (demo_server, [])) as [[i|err] w] eqn:Hstat;
      [vm_compute in Hstat; discriminate|].
    destruct (Open_agrees_with_Stat "/x/y" demo_server []) as (_ & Herr & _).
    exists err, w. split; [done|]. by apply Herr.
Defined.

(** ** The directory listed and the name looked for *)

Section PathShapes.

Import path.

Local Abbreviation chars := list_ascii_of_string.
Local Abbreviation str := string_of_list_ascii.

Implicit Types (p q dir name : string).

Lemma no_slash_byte_ended l : no_slash l -> byte_ended l.
Proof.
  intros Hl. destruct l as [|c l] using rev_ind; [by left|]. right.
  exists c. split; [apply last_snoc|].
  apply Forall_app in Hl as [_ Hc]. by inversion Hc.
Qed.

Lemma no_slash_has_element name :
  name <> "" -> no_slash (chars name) -> has_element name.
Proof.
  intros Hne Hno. destruct name as [|c name']; [done|].
  exists c. split; [by left|]. by inversion Hno.
Qed.

Lemma Split_no_slash name : no_slash (chars name) -> Split name = ("", name).
Proof.
  intros Hno. pose proof (Split_app [] (chars name) Hno) as Hsplit.
  cbn [app] in Hsplit. rewrite str_chars in Hsplit. apply Hsplit. by left.
Qed.

Lemma strip_slashes_byte_ended p :
  byte_ended (chars p) -> strip_slashes (len p) p = p.
Proof.
  intros Hp. pose proof (strip_slashes_app (chars p) 0 (len p) Hp) as Hstrip.
  cbn [replicate] in Hstrip. rewrite app_nil_r, str_chars in Hstrip.
  apply Hstrip. lia.
Qed.

(** A name of a single element is looked for in [.]. *)
Lemma Dir_single name : no_slash (chars name) -> Dir name = ".".
Proof. intros Hno. unfold Dir. by rewrite (Split_no_slash name Hno). Qed.

Lemma Base_single name : name <> "" -> no_slash (chars name) -> Base name = name.
Proof.
  intros Hne Hno. rewrite (Base_Split name Hne). cbn zeta.
  rewrite strip_slashes_byte_ended by (by apply no_slash_byte_ended).
  rewrite (Split_no_slash name Hno). cbn [snd].
  by destruct (String.eqb_spec name "").
Qed.

(** The path of an entry of a directory: the directory is listed, cleaned,
    and the name of the entry is looked for. *)
Lemma Dir_join dir name :
  dir <> "" -> no_slash (chars name) -> Dir (dir +:+ "/" +:+ name) = Clean dir.
Proof.
  intros Hdir Hno. rewrite <- append_assoc.
  rewrite (Dir_append (dir +:+ "/")) by apply (last_chars_append_slash dir "").
  rewrite (Split_no_slash name Hno). cbn [fst].
  replace ((dir +:+ "/") +:+ "") with (dir +:+ "/")
    by (apply chars_inj; by rewrite !chars_append, app_nil_r).
  by apply Clean_trailing_slash.
Qed.

Lemma Base_join dir name :
  name <> "" -> no_slash (chars name) -> Base (dir +:+ "/" +:+ name) = name.
Proof.
  intros Hne Hno. rewrite <- append_assoc.
  rewrite (Base_append (dir +:+ "/"));
    [by apply Base_single|apply (last_chars_append_slash dir "")|].
  by apply no_slash_has_element.
Qed.

(** [Base] is never empty, and has a slash only when it is [/]. *)
Lemma Base_shape p :
  Base p <> "" /\ (no_slash (chars (Base p)) \/ Base p = "/").
Proof.
  destruct (decide (p = "")) as [->|Hp].
  { split; [done|]. left. repeat constructor. discriminate. }
  rewrite (Base_Split p Hp). cbn zeta.
  destruct (split_exists (chars (strip_slashes (len p) p))) as (d & f & Hchars & Hf & Hd).
  assert (strip_slashes (len p) p = str (d ++ f)) as -> by (by rewrite <- Hchars, str_chars).
  rewrite (Split_app d f Hf Hd). cbn [snd].
  destruct (String.eqb_spec (str f) "") as [Hempty|Hne]; [split; [done|by right]|].
  split; [done|]. left. by rewrite chars_str.
Qed.

Lemma Base_idempotent p : Base (Base p) = Base p.
Proof.
  destruct (Base_shape p) as [Hne [Hno| ->]]; [|done].
  by apply Base_single.
Qed.

(** [Clean] is never empty and keeps a path rooted or not as it is. *)
Lemma Clean_chars_nonempty l : Clean_chars l <> [].
Proof.
  destruct l as [|c l]; [done|]. cbn [Clean_chars].
  destruct (is_slash c).
  - destruct (clean_chars true false l 1 [slash]); [done|done].
  - destruct (clean_chars false false (c :: l) 0 []); done.
Qed.

Lemma Clean_nonempty p : Clean p <> "".
Proof.
  rewrite Clean_refines. intros Heq. apply (f_equal chars) in Heq.
  rewrite chars_str in Heq. by apply Clean_chars_nonempty in Heq.
Qed.


Lemma head_ok_take rooted out k :
  head_ok rooted out -> (rooted = true -> (1 <= k)%nat) -> head_ok rooted (take k out).
Proof.
  intros Hok Hk. destruct out as [|c out]; [by destruct k|].
  destruct k as [|k]; [|done]. cbn. destruct rooted; [|done]. specialize (Hk eq_refl). lia.
Qed.

Lemma backtrack_chars_ge fuel : forall dotdot out k,
  (dotdot <= k)%nat -> (dotdot <= backtrack_chars fuel dotdot out k)%nat.
Proof.
  induction fuel as [|fuel IH]; intros dotdot out k Hk; cbn [backtrack_chars]; [done|].
  destruct (Nat.ltb_spec dotdot k); cbn [andb]; [|done].
  destruct (negb (is_slash (nth k out Ascii.zero))); [|done].
  apply IH. lia.
Qed.

Lemma clean_chars_head k : forall rest, (length rest <= k)%nat ->
  forall rooted copying dotdot out,
    head_ok rooted out -> (rooted = true -> (1 <= dotdot)%nat) ->
    head_ok rooted (clean_chars rooted copying rest dotdot out).
Proof.
  induction k as [|k IH]; intros rest Hlen rooted copying dotdot out Hok Hdd.
  { destruct rest; [done|cbn in Hlen; lia]. }
  destruct rest as [|c rest']; [done|]. cbn [length] in Hlen. cbn [clean_chars].
  assert (forall c', is_slash c' = false -> head_ok rooted (out ++ [c']) \/ rooted = true /\ out = [])
    as Hpush.
  { intros c' Hc'. destruct out as [|c0 out]; [|by left].
    cbn in Hok. subst rooted. left. exact Hc'. }
  assert (forall c', is_slash c' = false -> head_ok rooted (out ++ [c'])) as Hpush'.
  { intros c' Hc'. destruct (Hpush c' Hc') as [?|[-> ->]]; [done|]. by cbn in Hok. }
  destruct copying.
  { destruct (is_slash c) eqn:Hc; apply IH; try done; try lia. by apply Hpush'. }
  destruct (is_slash c) eqn:Hc; [apply IH; try done; lia|].
  destruct (is_dot c && at_boundary rest'); [apply IH; try done; lia|].
  destruct (is_dot c && match rest' with c' :: _ => is_dot c' | [] => false end
            && at_boundary (tl rest')).
  - destruct rest' as [|c' rest'']; [done|]. cbn [length] in Hlen.
    destruct (Nat.ltb_spec dotdot (length out)).
    + apply IH; [lia| |done]. apply head_ok_take; [done|].
      intros Hr. specialize (Hdd Hr).
      pose proof (backtrack_chars_ge (length out - 1) dotdot out (length out - 1)). lia.
    + destruct rooted; cbn [negb]; [apply IH; try done; lia|].
      apply IH; [lia| |done].
      destruct out as [|c0 out]; [done|]. cbn [length Nat.ltb Nat.leb app]. done.
  - apply IH; [lia| |done].
    destruct out as [|c0 out].
    + cbn in Hok. subst rooted. cbn. exact Hc.
    + cbn [length].
      destruct (rooted && negb (S (length out) =? 1)%nat
                || negb rooted && negb (S (length out) =? 0)%nat)%bool; done.
Qed.

Lemma Clean_chars_head c l :
  head_ok (is_slash c) (Clean_chars (c :: l)).
Proof.
  cbn [Clean_chars]. destruct (is_slash c) eqn:Hc.
  - pose proof (clean_chars_head (length l) l (le_n _) true false 1 [slash] eq_refl
                  (fun _ => le_n 1)) as Hok.
    destruct (clean_chars true false l 1 [slash]); [done|]. exact Hok.
  - pose proof (clean_chars_head (length (c :: l)) (c :: l) (le_n _) false false 0 []
                  eq_refl ltac:(discriminate)) as Hok.
    destruct (clean_chars false false (c :: l) 0 []); [done|]. exact Hok.
Qed.

Lemma Clean_rooted p : byte_at (Clean p) 0 = slash <-> byte_at p 0 = slash.
Proof.
  destruct p as [|c p']; [done|].
  rewrite Clean_refines. change (chars (String c p')) with (c :: chars p').
  pose proof (Clean_chars_head c (chars p')) as Hok.
  pose proof (Clean_chars_nonempty (c :: chars p')) as Hne.
  rewrite byte_at_chars, chars_str.
  destruct (Clean_chars (c :: chars p')) as [|c0 out]; [done|].
  cbn in Hok |- *. unfold is_slash in Hok.
  destruct (Ascii.eqb_spec c slash) as [->|Hc];
    destruct (Ascii.eqb_spec c0 slash) as [->|Hc0]; try done.
Qed.

Lemma Split_fst_rooted p :
  byte_at p 0 = slash -> byte_at (fst (Split p)) 0 = slash.
Proof.
  intros Hp. destruct (split_exists (chars p)) as (d & f & Hchars & Hf & Hd).
  assert (p = str (d ++ f)) as -> by (by rewrite <- Hchars, str_chars).
  rewrite (Split_app d f Hf Hd). cbn [fst].
  rewrite byte_at_chars, chars_str in *.
  destruct d as [|c d]; [|exact Hp].
  cbn [app] in Hp. destruct f as [|c f]; [done|].
  cbn in Hp. subst c. by inversion Hf.
Qed.

(** The directory listed is never empty, and is rooted exactly when the
    path is. *)
Lemma Dir_nonempty p : Dir p <> "".
Proof. unfold Dir. destruct (Split p). apply Clean_nonempty. Qed.

Lemma Dir_rooted p : byte_at (Dir p) 0 = slash <-> byte_at p 0 = slash.
Proof.
  assert (Dir p = Clean (fst (Split p))) as -> by (unfold Dir; by destruct (Split p)).
  rewrite Clean_rooted. split.
  - intros Hfst. destruct (decide (byte_at p 0 = slash)) as [|Hp]; [done|].
    by apply Split_fst_first in Hp.
  - apply Split_fst_rooted.
Qed.

End PathShapes.

(** ** What resolution lists and looks for *)

Section ResolutionTargets.

Context {S R : Type} {conn : ServerConn S R}.

Implicit Types (st : S) (tr : list event) (name : string) (es : list Entry).

(** X4.  Whatever the outcome, [Stat] issues one call, the listing of a
    directory path that is not empty and is rooted exactly when the name
    is.  The name of the metadata it returns is not empty and has a slash
    only when it is [/]. *)
Theorem Stat_lists_one_directory name st tr r w :
  FS.Stat name (st, tr) = (r, w) ->
  exists dir,
    snd w = tr ++ [EvList dir] /\ dir <> "" /\
    (path.byte_at dir 0 = path.slash <-> path.byte_at name 0 = path.slash) /\
    forall info, r = Ok info ->
      FileInfo.Name info <> "" /\
      (path.no_slash (list_ascii_of_string (FileInfo.Name info)) \/ FileInfo.Name info = "/").
Proof.
  intros Hstat. exists (path.Dir name). split_and!.
  - rewrite Stat_run in Hstat. by injection Hstat as _ <-.
  - apply Dir_nonempty.
  - apply Dir_rooted.
  - intros info ->. apply Stat_returns_first_match in Hstat as [-> _].
    apply Base_shape.
Qed.

(** X5.  A name of one element is resolved in the listing of [.]. *)
Theorem Stat_single_element name st tr :
  name <> "" -> path.no_slash (list_ascii_of_string name) ->
  snd (snd (FS.Stat name (st, tr))) = tr ++ [EvList "."] /\
  ((exists info w, FS.Stat name (st, tr) = (Ok info, w)) <->
   (exists es st', conn_List st "." = (Ok es, st') /\
      exists ent, ent ∈ es /\ Name ent = name)).
Proof.
  intros Hne Hno. split.
  - by rewrite Stat_run, (Dir_single name Hno).
  - rewrite Stat_succeeds_iff, (Dir_single name Hno), (Base_single name Hne Hno). done.
Qed.

End ResolutionTargets.

Lemma Stat_lists_one_directory_witness :
  exists dir,
    snd (snd (FS.Stat "/x/z" (demo_server, []))) = [] ++ [EvList dir] /\ dir <> "".
Proof.
  destruct (FS.Stat "/x/z" (demo_server, [])) as [r w] eqn:Hstat.
  destruct (Stat_lists_one_directory "/x/z" demo_server [] r w Hstat)
    as (dir & Hlog & Hne & _).
  by exists dir.
Defined.

Lemma Stat_single_element_witness :
  snd (snd (FS.Stat "pub" (demo_server, []))) = [EvList "."].
Proof.
  apply (Stat_single_element "pub" demo_server []); [discriminate|].
  repeat constructor; discriminate.
Defined.

(** ** [ReadDir] and [Stat] together *)

Lemma filter_nil_Forall {A} (P : A -> Prop) `{forall x, Decision (P x)} (l : list A) :
  filter P l = [] <-> Forall (fun x => ~ P x) l.
Proof.
  induction l as [|x l IH]; [by split; [constructor|]|].
  rewrite filter_cons. destruct (decide (P x)) as [HP|HP].
  - split; [discriminate|]. by inversion 1.
  - rewrite IH. split; [by constructor|by inversion 1].
Qed.

Lemma strictly_sorted_NoDup (es : list Entry) :
  StronglySorted (fun x y => less_Name x y = true) es -> NoDup (Name <$> es).
Proof.
  induction 1 as [|x l Hl IH Hx]; csimpl; constructor; [|done].
  intros (y & Heq & Hy)%list_elem_of_fmap.
  rewrite Forall_forall in Hx. specialize (Hx y Hy).
  unfold less_Name in Hx. rewrite Heq in Hx.
  pose proof (less_irrefl _ less_Name_ordering y) as Hirr. unfold less_Name in Hirr.
  congruence.
Qed.

Section ReadDirMore.

Context {S R : Type} {conn : ServerConn S R}.
Context {sorter : SortSlice} {sorter_ok : SortSliceSpec}.

Implicit Types (st : S) (tr : list event) (name dir : string) (es : list Entry).

(** X6.  Every entry [ReadDir] returns for a directory resolves under the path
    of the directory joined with its name: when the session lists the same
    entries for the cleaned directory, [Stat] of that path succeeds after
    that one listing and returns metadata of that name, the entry itself
    when the names of the listing are pairwise distinct. *)
Theorem ReadDir_entries_resolve dir st st' st2 st2' tr tr2 es ds w d :
  dir <> "" ->
  conn_List st dir = (Ok es, st') ->
  FS.ReadDir dir (st, tr) = (Ok ds, w) ->
  conn_List st2 (path.Clean dir) = (Ok es, st2') ->
  d ∈ ds ->
  DirEntry_Name d <> "" ->
  path.no_slash (list_ascii_of_string (DirEntry_Name d)) ->
  exists info,
    FS.Stat (dir +:+ "/" +:+ DirEntry_Name d) (st2, tr2)
      = (Ok info, (st2', tr2 ++ [EvList (path.Clean dir)])) /\
    FileInfo.Name info = DirEntry_Name d /\
    (NoDup (Name <$> es) -> info = fileInfo d).
Proof.
  intros Hdir Hlist Hread Hlist2 Hd Hne Hno.
  rewrite ReadDir_run, Hlist in Hread. injection Hread as <- _.
  rewrite collect_filter in Hd.
  apply list_elem_of_fmap in Hd as (x & -> & Hx).
  rewrite (kept_perm es) in Hx. apply list_elem_of_filter in Hx as [_ Hx].
  change (DirEntry_Name (FileInfoToDirEntry {| e := x |})) with (Name x) in *.
  set (p := dir +:+ "/" +:+ Name x).
  assert (path.Dir p = path.Clean dir) as Hdirp by (by apply Dir_join).
  assert (path.Base p = Name x) as Hbasep by (by apply Base_join).
  destruct (Stat_succeeds_iff p st2 tr2) as [_ Hsucc].
  destruct Hsucc as (info & w2 & Hstat).
  { exists es, st2'. rewrite Hdirp, Hbasep. split; [done|]. by exists x. }
  exists info. pose proof Hstat as Hfirst.
  apply Stat_returns_first_match in Hfirst
    as (Hname & es' & st'' & before & after & Hlist' & Hes & _).
  rewrite Hdirp, Hlist2 in Hlist'. injection Hlist' as <- <-.
  rewrite Hbasep in Hname. split_and!.
  - rewrite Stat_run, Hdirp, Hlist2 in Hstat. cbn [snd] in Hstat.
    injection Hstat as Hr. rewrite Stat_run, Hdirp, Hlist2. cbn [snd]. by rewrite Hr.
  - done.
  - intros Hnodup. destruct info as [ent]. cbn in *. f_equal.
    apply (NoDup_fmap_inj_on Name es); [done| |done|done].
    rewrite Hes. apply elem_of_app. right. by left.
Qed.

(** X7.  [ReadDir] succeeds with no entries exactly when the listing succeeds
    and holds nothing but entries named [.] or [..]. *)
Theorem ReadDir_empty_iff name st st' tr es :
  conn_List st name = (Ok es, st') ->
  fst (FS.ReadDir name (st, tr)) = Ok [] <->
  Forall (fun x => is_dot_name (Name x)) es.
Proof.
  intros Hlist. rewrite ReadDir_run, Hlist. cbn [fst]. rewrite collect_filter.
  split.
  - intros [= Hnil]. apply fmap_nil_inv in Hnil.
    assert (filter (fun x => ~ is_dot_name (Name x)) es = []) as Hfilter.
    { apply Permutation_nil_r. by rewrite <- (kept_perm es), Hnil. }
    apply filter_nil_Forall in Hfilter.
    eapply Forall_impl; [exact Hfilter|]. intros x Hx.
    by destruct (decide (is_dot_name (Name x))).
  - intros Hall. f_equal.
    assert (filter (fun x => ~ is_dot_name (Name x)) es = []) as Hfilter.
    { apply filter_nil_Forall. eapply Forall_impl; [exact Hall|]. tauto. }
    pose proof (kept_perm es) as Hperm. rewrite Hfilter in Hperm.
    apply Permutation_nil_r in Hperm. by rewrite Hperm.
Qed.

(** X8.  A listing that is already in strict name order comes back in its own
    order, without the entries named [.] and [..]. *)
Theorem ReadDir_keeps_sorted_listing name st st' tr es :
  conn_List st name = (Ok es, st') ->
  StronglySorted (fun x y => less_Name x y = true) es ->
  FS.ReadDir name (st, tr) =
    (Ok ((fun x => FileInfoToDirEntry {| e := x |})
           <$> filter (fun x => ~ is_dot_name (Name x)) es),
     (st', tr ++ [EvList name])).
Proof.
  intros Hlist Hsorted. rewrite ReadDir_run, Hlist. cbn [fst snd].
  rewrite collect_filter.
  pose proof (strictly_sorted_NoDup es Hsorted) as Hnodup.
  assert (sort_Slice less_Name es = es) as ->; [|done].
  apply (StronglySorted_unique_strong (fun x y => less_Name y x = false)).
  - intros x1 x2 Hx1 Hx2 H12 H21.
    rewrite (sort_Slice_perm _ less_Name es) in Hx1.
    apply (NoDup_fmap_inj_on Name es); [done..|].
    unfold less_Name in *. apply String.leb_antisym; by apply ltb_false_leb.
  - apply sort_Slice_strongly_sorted.
  - clear Hlist Hnodup. induction Hsorted as [|x l Hl IH Hx]; constructor; [done|].
    eapply Forall_impl; [exact Hx|]. intros y Hxy. cbn in Hxy |- *.
    destruct (less_Name y x) eqn:Hyx; [|done].
    pose proof (less_trans _ less_Name_ordering x y x Hxy Hyx) as Hxx.
    by rewrite (less_irrefl _ less_Name_ordering x) in Hxx.
  - apply sort_Slice_perm.
Qed.

End ReadDirMore.

Lemma ReadDir_entries_resolve_witness :
  exists info,
    FS.Stat ("/pub" +:+ "/" +:+ "a.txt") (demo_server, [])
      = (Ok info, (demo_server, [EvList "/pub"])) /\
    info = {| e := file_entry "a.txt" 1 |}.
Proof.
  set (d := FileInfoToDirEntry {| e := file_entry "a.txt" 1 |}).
  destruct (ReadDir_entries_resolve (sorter_ok := insertionSort_SortSliceSpec)
              "/pub" demo_server demo_server demo_server demo_server [] []
              [dir_entry "."; dir_entry ".."; file_entry "b.txt" 2; file_entry "a.txt" 1]
              [d; FileInfoToDirEntry {| e := file_entry "b.txt" 2 |}]
              (demo_server, [EvList "/pub"]) d)
    as (info & Hstat & _ & Hsame).
  - discriminate.
  - reflexivity.
  - vm_compute. reflexivity.
  - reflexivity.
  - by left.
  - discriminate.
  - repeat constructor; discriminate.
  - exists info. split; [exact Hstat|]. apply Hsame.
    apply (bool_decide_unpack _). vm_compute. exact I.
Defined.

Lemma ReadDir_empty_iff_witness :
  fst (FS.ReadDir (sorter := insertionSort_SortSlice) "/empty" (bare_server, [])) = Ok [] /\
  fst (FS.ReadDir (sorter := insertionSort_SortSlice) "/none" (bare_server, [])) = Ok [].
Proof.
  split.
  - apply (ReadDir_empty_iff (sorter_ok := insertionSort_SortSliceSpec)
             "/empty" bare_server bare_server [] [dir_entry "."; dir_entry ".."]);
      [reflexivity|].
    apply Forall_cons. split; [by left|].
    apply Forall_cons. split; [by right|]. apply Forall_nil_2.
  - apply (ReadDir_empty_iff (sorter_ok := insertionSort_SortSliceSpec)
             "/none" bare_server bare_server [] []); [reflexivity|apply Forall_nil_2].
Defined.

Lemma ReadDir_keeps_sorted_listing_witness :
  FS.ReadDir (sorter := insertionSort_SortSlice) "/" (demo_server, [])
  = (Ok [FileInfoToDirEntry {| e := dir_entry "pub" |};
         FileInfoToDirEntry {| e := dir_entry "x" |}],
     (demo_server, [EvList "/"])).
Proof.
  apply (ReadDir_keeps_sorted_listing (sorter_ok := insertionSort_SortSliceSpec)
           "/" demo_server demo_server [] [dir_entry "pub"; dir_entry "x"]);
    [reflexivity|].
  repeat constructor.
Defined.

(** ** [Mode], [IsDir] and the directory entry *)

(** X9.  Whenever [Mode] returns, [IsDir] is the directory bit of the mode, the
    mode is regular exactly for the file type, it has no permission bit and
    nothing but its type bits, and the directory entry made of the
    metadata has that mode as its type.  When [Mode] panics, [IsDir] still
    returns, [false], and the type of the directory entry panics with the
    same value. *)
Theorem Mode_agrees_with_IsDir info :
  (forall m, FileInfo.Mode info = Returns m ->
     FileInfo.IsDir info = fs.FileMode_IsDir m /\
     (fs.FileMode_IsRegular m = true <-> Type_ (e info) = EntryTypeFile) /\
     fs.FileMode_Perm m = 0 /\
     fs.FileMode_Type m = m /\
     DirEntry_Type (FileInfoToDirEntry info) = Returns m /\
     DirEntry_IsDir (FileInfoToDirEntry info) = fs.FileMode_IsDir m) /\
  (forall v, FileInfo.Mode info = Panics v ->
     FileInfo.IsDir info = false /\
     DirEntry_IsDir (FileInfoToDirEntry info) = false /\
     DirEntry_Type (FileInfoToDirEntry info) = Panics v).
Proof.
  unfold DirEntry_Type, DirEntry_IsDir, FileInfoToDirEntry. cbn [fileInfo].
  unfold FileInfo.Mode, FileInfo.IsDir, EntryTypeFile, EntryTypeFolder, EntryTypeLink.
  destruct (Z.eqb_spec (Type_ (e info)) 0) as [H0|H0].
  { rewrite H0. split; [|discriminate]. intros m [= <-]. by split_and!. }
  destruct (Z.eqb_spec (Type_ (e info)) 1) as [H1|H1].
  { split; [|discriminate]. intros m [= <-]. by split_and!. }
  destruct (Z.eqb_spec (Type_ (e info)) 2) as [H2|H2].
  { split; [|discriminate]. intros m [= <-]. by split_and!. }
  split; [discriminate|]. by intros v [= <-].
Qed.

Lemma Mode_agrees_with_IsDir_witness :
  FileInfo.IsDir {| e := dir_entry "pub" |} = fs.FileMode_IsDir fs.ModeDir /\
  fs.FileMode_Perm fs.ModeDir = 0 /\
  FileInfo.IsDir {| e := {| Name := "x"; Target := ""; Type_ := 7; Size := 0; Time := 0 |} |}
    = false.
Proof.
  destruct (Mode_agrees_with_IsDir {| e := dir_entry "pub" |}) as [Hret _].
  destruct (Hret fs.ModeDir eq_refl) as (His & _ & Hperm & _).
  split; [exact His|]. split; [exact Hperm|].
  destruct (Mode_agrees_with_IsDir
              {| e := {| Name := "x"; Target := ""; Type_ := 7; Size := 0; Time := 0 |} |})
    as [_ Hpanic].
  by destruct (Hpanic _ eq_refl) as [-> _].
Defined.

(** ** [Close] on a stream that breaks *)

Lemma drain_broken_netstream fuel : forall data cl n tr err,
  (length data < fuel)%nat -> is_EOF err = false ->
  exists reads,
    Forall ok_read reads /\
    discard_ReadFrom fuel n ({| unread := data; broken := Some err; closed := cl |}, tr)
    = (Some (n + Z.of_nat (length data), Some err),
       ({| unread := []; broken := Some err; closed := cl |},
        tr ++ reads ++ [EvRead 0 (Some err)])).
Proof.
  induction fuel as [|fuel IH]; intros data cl n tr err Hfuel Herr; [lia|].
  cbn [discard_ReadFrom]. unfold Response_Read, bind, prim, emit, ret.
  cbn [resp_Read netstream_Response].
  destruct data as [|a data].
  - rewrite netstream_Read_empty. change (default EOF (Some err)) with err.
    cbn [fst snd]. rewrite Herr.
    exists []. split; [constructor|]. reflexivity.
  - rewrite netstream_Read_data. cbn [fst snd].
    pose proof blackHole_len_pos.
    set (k := Nat.min blackHole_len (S (length data))).
    assert (1 <= k <= S (length data))%nat as Hk by (unfold k; lia).
    destruct (IH (drop k (a :: data)) cl (n + Z.of_nat k)
                (tr ++ [EvRead (Z.of_nat k) None]) err)
      as (reads & Hok & ->); [|done|].
    { rewrite length_drop. cbn [length] in *. lia. }
    exists (EvRead (Z.of_nat k) None :: reads). split.
    + constructor; [by eexists|done].
    + rewrite length_drop. cbn [length]. rewrite <- !app_assoc.
      do 2 f_equal. f_equal. lia.
Qed.

(** X10.  When the stream breaks with an error other than end-of-stream once its
    bytes are delivered, [Close] reads all of them, returns that error
    wrapped with the empty message, issues no close and logs nothing: the
    stream stays open. *)
Theorem Close_broken_stream_stays_open data err fuel tr :
  (length data < fuel)%nat -> is_EOF err = false ->
  exists reads,
    Forall ok_read reads /\
    File.Close fuel ({| unread := data; broken := Some err; closed := false |}, tr)
    = (Some (Some (Wrap err "")),
       ({| unread := []; broken := Some err; closed := false |},
        tr ++ reads ++ [EvRead 0 (Some err)])).
Proof.
  intros Hfuel Herr.
  destruct (drain_broken_netstream fuel data false 0 tr err Hfuel Herr)
    as (reads & Hok & Hdrain).
  exists reads. split; [done|].
  unfold File.Close, io_Copy_Discard. unfold bind at 1. by rewrite Hdrain.
Qed.

Lemma Close_broken_stream_stays_open_witness :
  exists reads,
    Forall ok_read reads /\
    File.Close 3 ({| unread := ["h"; "i"]%char; broken := Some (Foreign "reset");
                     closed := false |}, [])
    = (Some (Some (Wrap (Foreign "reset") "")),
       ({| unread := []; broken := Some (Foreign "reset"); closed := false |},
        [] ++ reads ++ [EvRead 0 (Some (Foreign "reset"))])).
Proof.
  apply (Close_broken_stream_stays_open ["h"; "i"]%char (Foreign "reset") 3 []);
    [simpl; lia|reflexivity].
Defined.

(** ** The ways the three operations fail *)

Section FailureModes.

Context {S R : Type} {conn : ServerConn S R} {sorter : SortSlice}.

Implicit Types (st : S) (tr : list event) (name : string).

(** X11.  [Stat] fails in two ways only: the listing failed, and the error is
    the session's wrapped with the directory and wrapped again, or the
    listing has no entry of the base name, and the error is the not-found
    error wrapped.  [Open] fails as [Stat] does or, once [Stat] would
    succeed, with the error of the retrieve wrapped.  [ReadDir] fails only
    when its listing fails.  Every error returned is a wrap with the empty
    message. *)
Theorem failure_modes name st tr :
  (forall err w, FS.Stat name (st, tr) = (Err err, w) ->
     (exists serr st', conn_List st (path.Dir name) = (Err serr, st') /\
        err = Wrap (Wrap serr (path.Dir name)) "") \/
     (exists es st', conn_List st (path.Dir name) = (Ok es, st') /\
        Forall (fun x => Name x <> path.Base name) es /\
        err = Wrap (Errorf "%s %+v" [FmtString (path.Base name); FmtEntries es]) "")) /\
  (forall err w, FS.Open name (st, tr) = (Err err, w) ->
     FS.Stat name (st, tr) = (Err err, w) \/
     (exists info0 st1 tr1 serr st2,
        FS.Stat name (st, tr) = (Ok info0, (st1, tr1)) /\
        conn_Retr st1 name = (Err serr, st2) /\
        err = Wrap serr "" /\ w = (st2, tr1 ++ [EvRetr name]))) /\
  (forall err w, FS.ReadDir name (st, tr) = (Err err, w) ->
     exists serr st', conn_List st name = (Err serr, st') /\
       err = Wrap serr "" /\ w = (st', tr ++ [EvList name])).
Proof.
  split_and!.
  - intros err w. rewrite Stat_run, getEntry_run.
    destruct (conn_List st (path.Dir name)) as [[es|serr] st'] eqn:Hlist; cbn [fst snd].
    + destruct (FS.scan (path.Base name) es) as [ent|] eqn:Hscan; [discriminate|].
      intros [= <- <-]. right. exists es, st'. split_and!; [done| |done].
      by apply scan_None.
    + intros [= <- <-]. left. by exists serr, st'.
  - intros err w. rewrite Open_run. unfold FS.Stat, bind, ret.
    destruct (FS.getEntry name (st, tr)) as [[ent|gerr] [st1 tr1]].
    + destruct (conn_Retr st1 name) as [[resp|serr] st2] eqn:Hretr; cbn [fst snd];
        [discriminate|].
      intros [= <- <-]. right. by exists {| e := ent |}, st1, tr1, serr, st2.
    + intros [= <- <-]. by left.
  - intros err w. run.
    destruct (conn_List st name) as [[es|serr] st'] eqn:Hlist; cbn; [discriminate|].
    intros [= <- <-]. by exists serr, st'.
Qed.

End FailureModes.

Lemma failure_modes_witness :
  (exists serr st',
     conn_List demo_server (path.Dir "/missing/f") = (Err serr, st') /\
     fst (FS.Stat "/missing/f" (demo_server, []))
       = Err (Wrap (Wrap serr (path.Dir "/missing/f")) "")) /\
  (exists serr,
     fst (FS.ReadDir (sorter := insertionSort_SortSlice) "/missing" (demo_server, []))
       = Err (Wrap serr "")).
Proof.
  split.
  - destruct (FS.Stat "/missing/f" (demo_server, [])) as [[i|err] w] eqn:Hrun;
      [vm_compute in Hrun; discriminate|].
    destruct (failure_modes (sorter := insertionSort_SortSlice) "/missing/f" demo_server [])
      as (Hstat & _ & _).
    destruct (Hstat err w Hrun) as [(serr & st' & Hlist & ->)|(es & st' & Hlist & _)];
      [|vm_compute in Hlist; discriminate].
    exists serr, st'. split; [exact Hlist|reflexivity].
  - destruct (FS.ReadDir (sorter := insertionSort_SortSlice) "/missing" (demo_server, []))
      as [[ds|err] w] eqn:Hrun; [vm_compute in Hrun; discriminate|].
    destruct (failure_modes (sorter := insertionSort_SortSlice) "/missing" demo_server [])
      as (_ & _ & Hread).
    destruct (Hread err w Hrun) as (serr & st' & _ & -> & _).
    exists serr. reflexivity.
Defined.

(** ** The directory listed has no doubled and no trailing slash *)

Section TidyPaths.

Import path.

Local Abbreviation chars := list_ascii_of_string.
Local Abbreviation str := string_of_list_ascii.

Implicit Types (out e : list ascii) (c : ascii).














End TidyPaths.

Section TidyResolution.

Context {S R : Type} {conn : ServerConn S R}.


End TidyResolution.

(** ** The root and the current directory *)

Section DirectoryItself.

Import path.

Local Abbreviation chars := list_ascii_of_string.
Local Abbreviation str := string_of_list_ascii.

Lemma clean_chars_slashes k : forall rooted dotdot out,
  clean_chars rooted false (replicate k slash) dotdot out = out.
Proof. induction k as [|k IH]; intros rooted dotdot out; [done|]. cbn. apply IH. Qed.

Lemma only_slashes name :
  name <> "" -> Forall (fun c => c = slash) (chars name) ->
  exists k, name = str (replicate (Datatypes.S k) slash).
Proof.
  intros Hne Hall. destruct name as [|c name]; [done|].
  exists (length (chars name)). apply chars_inj. rewrite chars_str.
  symmetry. apply replicate_as_Forall. split; [done|].
  eapply Forall_impl; [exact Hall|]. by intros x ->.
Qed.

Lemma Dir_only_slashes k : Dir (str (replicate (Datatypes.S k) slash)) = "/".
Proof.
  unfold Dir.
  rewrite <- (app_nil_r (replicate (Datatypes.S k) slash)), Split_app.
  - rewrite Clean_refines, chars_str. cbn. by rewrite clean_chars_slashes.
  - constructor.
  - right. rewrite replicate_S_end. apply last_snoc.
Qed.

Lemma Base_only_slashes k : Base (str (replicate (Datatypes.S k) slash)) = "/".
Proof.
  rewrite Base_Split by done. cbn zeta.
  change (replicate (Datatypes.S k) slash) with ([] ++ replicate (Datatypes.S k) slash) at 2.
  rewrite strip_slashes_app; [done|by left|].
  rewrite len_str, length_replicate. done.
Qed.

Context {S R : Type} {conn : ServerConn S R}.

(** X13.  A name made of slashes only is looked up as an entry named [/] in the
    listing of [/], and the empty name and [.] as an entry named [.] in
    the listing of [.]: [Stat] of the root or of the current directory
    succeeds only when the directory lists itself under that name. *)
Theorem Stat_of_directory_itself (name target : string) (st : S) (tr : list event) :
  (name <> "" /\ Forall (fun c => c = slash) (chars name) /\ target = "/") \/
  ((name = "" \/ name = ".") /\ target = ".") ->
  snd (snd (FS.Stat name (st, tr))) = tr ++ [EvList target] /\
  ((exists info w, FS.Stat name (st, tr) = (Ok info, w)) <->
   (exists es st', conn_List st target = (Ok es, st') /\
      exists ent, ent ∈ es /\ Name ent = target)).
Proof.
  intros Hname.
  assert (Dir name = target /\ Base name = target) as [Hdir Hbase].
  { destruct Hname as [(Hne & Hall & ->)|[[-> | ->] ->]]; [|done|done].
    destruct (only_slashes name Hne Hall) as [k ->].
    by rewrite Dir_only_slashes, Base_only_slashes. }
  split.
  - by rewrite Stat_run, getEntry_run, Hdir.
  - by rewrite Stat_succeeds_iff, Hdir, Hbase.
Qed.

End DirectoryItself.

Lemma Stat_of_directory_itself_witness :
  snd (snd (FS.Stat "//" (demo_server, []))) = [EvList "/"] /\
  ~ exists info w, FS.Stat "//" (demo_server, []) = (Ok info, w).
Proof.
  destruct (Stat_of_directory_itself "//" "/" demo_server []) as [Hlog Hiff].
  { left. split_and!; [discriminate| |reflexivity]. by repeat constructor. }
  split; [exact Hlog|].
  intros (es & st' & Hlist & ent & Hin & Hname)%Hiff.
  vm_compute in Hlist. injection Hlist as <- _.
  apply elem_of_cons in Hin as [->|Hin]; [discriminate|].
  apply elem_of_cons in Hin as [->|Hin]; [discriminate|].
  by apply elem_of_nil in Hin.
Defined.
